(** * Railway: the track registry and the navigation state

    A shallow embedding of [src/useRailwayProviderValue.ts]: the merge of the
    default track map with the user-defined overlay maps
    ([getTracksFromMap]) and the provider's navigation state with its four
    actions ([navigateToView], [returnToLast], [registerNewTracks],
    [deregisterTracks]) and its derived values ([currentTrack],
    [returnDirection]).

    Conventions of the embedding:
    - a coordinate is an integer ([Z]); a position is a pair [[x, y]];
    - a JavaScript [Map] with string keys is an insertion-ordered
      association list ([JsMap.t]), because the merge resolves conflicts in
      iteration order;
    - the context store, whose order is never observed, is a [gmap];
    - [undefined] is [None];
    - the React state cells are the fields of one record, every action is a
      function from the state before the call to the state after it,
      together with what it writes on the console;
    - [currentTrack] and [returnDirection] are first given as the bodies of
      their memos, functions of the variables they read; the values the
      provider hands out, which React recomputes only when a dependency of
      the memo is replaced, are those of the render-by-render model
      ([Hook]);
    - sums of coordinates are taken in [Z]; they are the sums of the
      JavaScript numbers as long as operands and result are safe integers
      ([safeInteger]). *)

From Stdlib Require Import ZArith List Bool Lia.
From stdpp Require Import base strings list gmap.
Import ListNotations.

Local Open Scope string_scope.
Local Open Scope nat_scope.
Local Open Scope list_scope.

(** ** JavaScript values that are tested for truthiness *)

(** [!!s] for a string: every string but the empty one. *)
Definition truthy (s : string) : bool := negb (String.eqb s "").

(** [a || b] where [a] is a string or [undefined] and [b] is [null]. *)
Definition orNull (a : option string) : option string :=
  match a with
  | Some s => if truthy s then Some s else None
  | None => None
  end.

(** [a || b] where [a] is a number or [undefined] and [b] a number. *)
Definition orNumber (a : option Z) (b : Z) : Z :=
  match a with
  | Some n => if (n =? 0)%Z then b else n
  | None => b
  end.

(** [arr[i]] for an integer [i]: [undefined] outside of the array. *)
Definition jsIndex {A : Type} (arr : list A) (i : Z) : option A :=
  if (i <? 0)%Z then None else arr !! Z.to_nat i.

(** ** Insertion-ordered maps with string keys *)

Module JsMap.
Section Ops.
Context {V : Type}.

Definition t : Type := list (string * V).

Definition empty : t := [].

Fixpoint get (m : t) (k : string) : option V :=
  match m with
  | [] => None
  | (k', v) :: m' => if String.eqb k' k then Some v else get m' k
  end.

Definition has (m : t) (k : string) : bool :=
  match get m k with Some _ => true | None => false end.

(** [set] keeps the place of a key that is already there and appends a
    new one. *)
Fixpoint set (m : t) (k : string) (v : V) : t :=
  match m with
  | [] => [(k, v)]
  | (k', v') :: m' =>
      if String.eqb k' k then (k, v) :: m' else (k', v') :: set m' k v
  end.

Fixpoint delete (m : t) (k : string) : t :=
  match m with
  | [] => []
  | (k', v') :: m' =>
      if String.eqb k' k then delete m' k else (k', v') :: delete m' k
  end.

Definition keys (m : t) : list string := map fst m.
Definition values (m : t) : list V := map snd m.

(** The keys of a JavaScript [Map] are pairwise distinct. *)
Definition wf (m : t) : Prop := NoDup (keys m).
End Ops.
Arguments t : clear implicits.
End JsMap.

(** ** Data model *)

Definition TrackPosition : Type := (Z * Z)%type.

(** What [returnDirection] evaluates to when it is not [null]. *)
Inductive ReturnDirection := Left | Right | Top.

(** What the provider writes on the console. *)
Inductive Diagnostic :=
| NameAlreadyRegistered (name : string)
| TrackConflict (name : string) (positionRef : TrackPosition)
| NotAValidTrack (id : string).

Section Railway.
(** The render payload and the navigation context are opaque. *)
Context {Render TrackContext : Type}.

Record TrackDefinition := mkTrack {
  position : TrackPosition;
  render : Render
}.

(** [{ id } & TrackDefinition] *)
Record TrackIterDefinition := mkIter {
  id : string;
  definition : TrackDefinition
}.

Definition TrackMap : Type := JsMap.t TrackDefinition.

(** *** getTracksFromMap *)

Definition samePosition (p q : TrackPosition) : bool :=
  (p.1 =? q.1)%Z && (p.2 =? q.2)%Z.

(** [index = existingPositions.length; while (index--) { ... }]:
    the scan runs from the last position to the first and stops at the
    first one equal to [p]. *)
Fixpoint scanPositions (existingPositions : list TrackPosition)
    (index : nat) (p : TrackPosition) : option TrackPosition :=
  match index with
  | O => None
  | S index' =>
      match existingPositions !! index' with
      | Some positionRef =>
          if samePosition positionRef p then Some positionRef
          else scanPositions existingPositions index' p
      | None => scanPositions existingPositions index' p
      end
  end.

(** The body of the inner [forEach]: one entry [(name, data)] of one user
    map, against the union built so far. [existingPositions] is the array
    computed before the loops; nothing is pushed to it afterwards. *)
Definition addTrack (existingPositions : list TrackPosition)
    (acc : TrackMap * list Diagnostic) (entry : string * TrackDefinition)
    : TrackMap * list Diagnostic :=
  let '(unionMap, log) := acc in
  let '(name, data) := entry in
  if JsMap.has unionMap name then
    (unionMap, log ++ [NameAlreadyRegistered name])
  else
    match scanPositions existingPositions (length existingPositions)
            (position data) with
    | Some positionRef => (unionMap, log ++ [TrackConflict name positionRef])
    | None => (JsMap.set unionMap name data, log)
    end.

Definition mergeTracks (mapA : TrackMap) (setOfUserMaps : JsMap.t TrackMap)
    : TrackMap * list Diagnostic :=
  let unionMap := mapA in
  let existingPositions := map position (JsMap.values unionMap) in
  fold_left
    (fun acc owned => fold_left (addTrack existingPositions) (snd owned) acc)
    setOfUserMaps (unionMap, []).

Definition getTracksFromMap (mapA : TrackMap)
    (setOfUserMaps : JsMap.t TrackMap) : list TrackIterDefinition :=
  map (fun entry => mkIter (fst entry) (snd entry))
      (fst (mergeTracks mapA setOfUserMaps)).

Definition findById (name : string) (track : TrackIterDefinition) : bool :=
  String.eqb (id track) name.

(** *** The provider state *)

(** The four state cells of [useRailwayProviderValue]: the two [useState]
    cells of the journey and of the position, the [useState] cell holding
    the user-defined maps, and the [Map] behind [contextMapRef]. A context
    stored as [undefined] is the value [None] under its key. *)
Record State := mkState {
  journeyStack : list string;
  currentPosition : TrackPosition;
  userDefinedTrackMaps : JsMap.t TrackMap;
  contextMap : gmap string (option TrackContext)
}.

Definition initialState : State :=
  mkState ["start"] (0%Z, 0%Z) JsMap.empty ∅.

Section Provider.
(** The argument of the hook. *)
Context (defaultTracks : TrackMap).

Definition allTracksAsList (st : State) : list TrackIterDefinition :=
  getTracksFromMap defaultTracks (userDefinedTrackMaps st).

(** The body of the [currentTrack] memo. *)
Definition currentTrack (tracks : list TrackIterDefinition)
    (pos : TrackPosition) : option TrackIterDefinition :=
  find (fun item =>
          (((position (definition item)).1 =? pos.1)%Z
           && ((position (definition item)).2 =? pos.2)%Z))
       tracks.

(** [journeyStack[journeyStack.length - 2] || null] *)
Definition previousTrackId (stack : list string) : option string :=
  orNull (jsIndex stack (Z.of_nat (length stack) - 2)).

(** The body of the [returnDirection] memo, as a function of the four
    variables it reads; [None] is [null]. *)
Definition returnDirection (stack : list string)
    (tracks : list TrackIterDefinition)
    (current : option TrackIterDefinition) (pos : TrackPosition)
    : option ReturnDirection :=
  match previousTrackId stack with
  | None => None
  | Some previous =>
      match find (findById previous) tracks, current with
      | Some previousTrack, Some _ =>
          let dX := ((position (definition previousTrack)).1 - pos.1)%Z in
          if (dX <? 0)%Z then Some Left
          else if (dX >? 0)%Z then Some Right
          else Some Top
      | _, _ => None
      end
  end.

(** *** Actions *)

Definition navigateToView (st : State) (name : string)
    (context : option TrackContext) : State * list Diagnostic :=
  match find (findById name) (allTracksAsList st) with
  | None => (st, [NotAValidTrack name])
  | Some matchingTrack =>
      (mkState (journeyStack st ++ [id matchingTrack])
               (position (definition matchingTrack))
               (userDefinedTrackMaps st)
               (<[id matchingTrack := context]> (contextMap st)),
       [])
  end.

Definition returnToLast (st : State) : State * list Diagnostic :=
  match previousTrackId (journeyStack st) with
  | None => (st, [])
  | Some previous =>
      match find (findById previous) (allTracksAsList st) with
      | None => (st, [NotAValidTrack previous])
      | Some matchingTrack =>
          (mkState (take (length (journeyStack st) - 1) (journeyStack st))
                   (position (definition matchingTrack))
                   (userDefinedTrackMaps st)
                   (contextMap st),
           [])
      end
  end.

(** [userStartPosition?.[i] || currentPosition?.[i] || 0] *)
Definition offset (user : option Z) (current : Z) : Z :=
  orNumber (Some (orNumber user current)) 0.

(** The loop that fills [userTargetMap]. *)
Definition translateTracks (offsetX offsetY : Z) (initialTrackMap : TrackMap)
    : TrackMap :=
  fold_left
    (fun userTargetMap entry =>
       JsMap.set userTargetMap (fst entry)
         (mkTrack ((offsetX + (position (snd entry)).1)%Z,
                   (offsetY + (position (snd entry)).2)%Z)
                  (render (snd entry))))
    initialTrackMap JsMap.empty.

Definition registerNewTracks (st : State) (owner : string)
    (initialTrackMap : TrackMap) (userStartPosition : option TrackPosition)
    : State :=
  let offsetX := offset (fst <$> userStartPosition) (currentPosition st).1 in
  let offsetY := offset (snd <$> userStartPosition) (currentPosition st).2 in
  let userTargetMap := translateTracks offsetX offsetY initialTrackMap in
  mkState (journeyStack st) (currentPosition st)
          (JsMap.set (userDefinedTrackMaps st) owner userTargetMap)
          (contextMap st).

(** [!id]. The signature declares [id: string]; the documented call
    without an id passes [undefined], which is [None] here. *)
Definition noOwner (owner : option string) : bool :=
  match owner with
  | Some s => negb (truthy s)
  | None => true
  end.

(** [userDefinedTrackMaps.get(id)?.keys() || []] *)
Definition keysToRemove (st : State) (owner : string) : list string :=
  match JsMap.get (userDefinedTrackMaps st) owner with
  | Some tracks => JsMap.keys tracks
  | None => []
  end.

Definition deregisterTracks (st : State) (owner : option string) : State :=
  match owner with
  | Some s =>
      if truthy s then
        mkState (journeyStack st) (currentPosition st)
                (JsMap.delete (userDefinedTrackMaps st) s)
                (fold_left (fun contexts key => delete key contexts)
                           (keysToRemove st s) (contextMap st))
      else
        mkState (journeyStack st) (currentPosition st) JsMap.empty
                (contextMap st)
  | None =>
      mkState (journeyStack st) (currentPosition st) JsMap.empty
              (contextMap st)
  end.

(** *** Runs of the provider *)

Inductive Action :=
| NavigateToView (name : string) (context : option TrackContext)
| ReturnToLast
| RegisterNewTracks (owner : string) (initialTrackMap : TrackMap)
    (userStartPosition : option TrackPosition)
| DeregisterTracks (owner : option string).

Definition step (st : State) (a : Action) : State :=
  match a with
  | NavigateToView name context => fst (navigateToView st name context)
  | ReturnToLast => fst (returnToLast st)
  | RegisterNewTracks owner tracks start =>
      registerNewTracks st owner tracks start
  | DeregisterTracks owner => deregisterTracks st owner
  end.

Definition run (actions : list Action) (st : State) : State :=
  fold_left step actions st.

End Provider.

End Railway.

Arguments TrackDefinition : clear implicits.
Arguments TrackIterDefinition : clear implicits.
Arguments TrackMap : clear implicits.
Arguments State : clear implicits.
Arguments Action : clear implicits.

(** ** Linear tracks ([src/useLinearTracks.ts]) *)

(** [Direction], the type of the step directions. *)
Inductive Direction := DirLeft | DirRight | DirDown.

(** The constants of [src/Railway.tsx]. *)
Definition DOWN : TrackPosition := (0%Z, 1%Z).
Definition LEFT : TrackPosition := ((-1)%Z, 0%Z).
Definition RIGHT : TrackPosition := (1%Z, 0%Z).

Definition directionToPositionDelta (direction : Direction) : TrackPosition :=
  match direction with
  | DirLeft => LEFT
  | DirRight => RIGHT
  | DirDown => DOWN
  end.

Record StepDefinition {Render : Type} := mkStep {
  stepId : string;
  direction : option Direction;
  stepRender : Render
}.
Arguments StepDefinition : clear implicits.
Arguments mkStep {Render} _ _ _.

(** The loop of [generateTracksFromSteps] from the step of index [index]
    on: every step but the first moves the position by the delta of its
    direction, ['right'] when it has none, and is set under its id. *)
Fixpoint stepsFrom {Render : Type} (index : nat)
    (currentPositionX currentPositionY : Z)
    (stepDefinitions : list (StepDefinition Render))
    (tracks : TrackMap Render) : TrackMap Render :=
  match stepDefinitions with
  | [] => tracks
  | stepRef :: rest =>
      let delta :=
        match index with
        | O => (0%Z, 0%Z)
        | S _ =>
            directionToPositionDelta
              (match direction stepRef with Some d => d | None => DirRight end)
        end in
      let x := (currentPositionX + delta.1)%Z in
      let y := (currentPositionY + delta.2)%Z in
      stepsFrom (S index) x y rest
        (JsMap.set tracks (stepId stepRef) (mkTrack (x, y) (stepRender stepRef)))
  end.

Definition generateTracksFromSteps {Render : Type}
    (stepDefinitions : list (StepDefinition Render)) : TrackMap Render :=
  stepsFrom 0 0 0 stepDefinitions JsMap.empty.

(** ** Statements *)

(** What the two loops keep true of the union: it extends [mapA], its
    names are distinct, and what was added lies off the positions of
    [mapA]. *)
Definition mergeInvariant {Render : Type} (mapA unionMap : TrackMap Render) : Prop :=
  ∃ added,
    unionMap = mapA ++ added
    ∧ JsMap.wf unionMap
    ∧ ∀ entry, entry ∈ added →
        position (snd entry) ∉ position <$> JsMap.values mapA.


Section Statements.
Context {Render TrackContext : Type}.
Context (defaultTracks : TrackMap Render).
Implicit Types (st : State Render TrackContext).

(** [returnToLast] described by the length of the journey alone: nothing
    happens under two entries; from two entries on, the entry before the
    last decides, by whether the flattened list has a track of that id. *)
Definition returnToLast_by_length st : Prop :=
  let stack := journeyStack st in
  let after := fst (returnToLast defaultTracks st) in
  (length stack < 2 → after = st)
  ∧ (2 ≤ length stack →
     ∀ previousId, stack !! (length stack - 2) = Some previousId →
       (∀ view, view ∈ allTracksAsList defaultTracks st → id view = previousId →
          after = mkState (take (length stack - 1) stack)
                    (position (definition view))
                    (userDefinedTrackMaps st) (contextMap st))
       ∧ ((∀ view, view ∈ allTracksAsList defaultTracks st → id view ≠ previousId) →
          after = st)).

(** [deregisterTracks] described by whether an owner is passed at all. *)
Definition deregisterTracks_by_presence st : Prop :=
  (∀ owner,
     let after := deregisterTracks st (Some owner) in
     (∀ other, JsMap.get (userDefinedTrackMaps after) other
               = if String.eqb owner other then None
                 else JsMap.get (userDefinedTrackMaps st) other)
     ∧ (∀ key, contextMap after !! key
               = if bool_decide (key ∈ keysToRemove st owner) then None
                 else contextMap st !! key))
  ∧ (let after := deregisterTracks st None in
     userDefinedTrackMaps after = JsMap.empty
     ∧ contextMap after = contextMap st).

(** [returnToLast] followed by [navigateToView] to the id just left. *)
Definition returnThenNavigate st (leftId : string)
    (context : option TrackContext) : State Render TrackContext :=
  fst (navigateToView defaultTracks (fst (returnToLast defaultTracks st))
         leftId context).

(** The round trip as a restored position, a length that is not restored
    and a net change of length of zero. *)
Definition roundTrip_changes_length st (context : option TrackContext) : Prop :=
  ∀ leftId view,
    2 ≤ length (journeyStack st) →
    last (journeyStack st) = Some leftId →
    view ∈ allTracksAsList defaultTracks st → id view = leftId →
    let after := returnThenNavigate st leftId context in
    currentPosition after = currentPosition st
    ∧ length (journeyStack after) ≠ length (journeyStack st)
    ∧ (Z.of_nat (length (journeyStack after))
       - Z.of_nat (length (journeyStack st)) = 0)%Z.
End Statements.

Section MergeStatement.
Context {Render : Type}.

(** No two tracks of the flattened list on one position. *)
Definition noSharedPosition (mapA : TrackMap Render)
    (setOfUserMaps : JsMap.t (TrackMap Render)) : Prop :=
  NoDup ((fun track => position (definition track))
         <$> getTracksFromMap mapA setOfUserMaps).
End MergeStatement.

Section DirectionStatement.
Context {Render : Type}.

(** [returnDirection] described by the length of the journey alone. *)
Definition returnDirection_by_length (stack : list string)
    (tracks : list (TrackIterDefinition Render))
    (current : option (TrackIterDefinition Render)) (pos : TrackPosition) : Prop :=
  let result := returnDirection stack tracks current pos in
  (length stack < 2 → result = None)
  ∧ (2 ≤ length stack →
     ∀ previousId, stack !! (length stack - 2) = Some previousId →
       (((∀ view, view ∈ tracks → id view ≠ previousId) ∨ current = None) →
          result = None)
       ∧ (∀ previousView, previousView ∈ tracks → id previousView = previousId →
          is_Some current →
          let dX := ((position (definition previousView)).1 - pos.1)%Z in
          ((dX < 0)%Z → result = Some Left)
          ∧ ((0 < dX)%Z → result = Some Right)
          ∧ (dX = 0%Z → result = Some Top))).
End DirectionStatement.

(** ** Safe integers *)

(** [Number.isSafeInteger]: the integers that JavaScript numbers hold
    exactly, sums included. *)
Definition safeInteger (n : Z) : Prop := (Z.abs n ≤ 2 ^ 53 - 1)%Z.

(** ** The hook, render by render *)

(** Which array a position is. The memos compare their dependencies with
    [Object.is], so that two equal positions held by two arrays differ:
    the literal [[0, 0]] of [useState], the arrays held by the tracks of the
    default map (two tracks have the same tag when they hold the same
    array; the default map is the same object at every render), and the
    arrays that [registerNewTracks] creates, one for every entry at every
    call. *)
Inductive ArrayRef :=
| InitialArray
| DefaultArray (tag : nat)
| UserArray (serial : nat) (name : string).

#[global] Instance ArrayRef_eq_dec : EqDecision ArrayRef.
Proof. solve_decision. Defined.

Section Hook.
Context {Render TrackContext : Type}.

(** The array of a position travels with its track, as the render
    function does. *)
Definition defaultArrays (defaultTracks : TrackMap (nat * Render))
    : TrackMap (ArrayRef * Render) :=
  map (fun entry =>
         (fst entry,
          mkTrack (position (snd entry))
                  (DefaultArray (fst (render (snd entry))),
                   snd (render (snd entry)))))
      defaultTracks.

Definition userArrays (serial : nat) (initialTrackMap : TrackMap Render)
    : TrackMap (ArrayRef * Render) :=
  map (fun entry =>
         (fst entry,
          mkTrack (position (snd entry))
                  (UserArray serial (fst entry), render (snd entry))))
      initialTrackMap.

Definition arrayOf (track : TrackIterDefinition (ArrayRef * Render)) : ArrayRef :=
  fst (render (definition track)).

(** What a render leaves behind: the state cells, the array that the
    [currentPosition] cell holds, the number of calls of
    [registerNewTracks] so far, and the values of the two memos. *)
Record Hook := mkHook {
  cells : State (ArrayRef * Render) TrackContext;
  positionArray : ArrayRef;
  registrations : nat;
  currentTrackMemo : option (TrackIterDefinition (ArrayRef * Render));
  returnDirectionMemo : option ReturnDirection
}.

Section Renders.
Context (defaultTracks : TrackMap (nat * Render)).

(** The first render. *)
Definition initialHook : Hook :=
  let first : State (ArrayRef * Render) TrackContext := initialState in
  let tracks := allTracksAsList (defaultArrays defaultTracks) first in
  let current := currentTrack tracks (0%Z, 0%Z) in
  mkHook first InitialArray 0 current
    (returnDirection ["start"] tracks current (0%Z, 0%Z)).

(** The render after an action: [allTracksAsList] follows the user maps;
    the memo of [currentTrack] is recomputed when the [currentPosition]
    cell holds another array, and kept otherwise; the memo of
    [returnDirection] is recomputed when the journey or that array has
    been replaced, and kept otherwise. *)
Definition rerender (before : Hook)
    (after : State (ArrayRef * Render) TrackContext)
    (array : ArrayRef) (journeyReplaced : bool) (calls : nat) : Hook :=
  let positionReplaced := negb (bool_decide (array = positionArray before)) in
  let tracks := allTracksAsList (defaultArrays defaultTracks) after in
  let current :=
    if positionReplaced then currentTrack tracks (currentPosition after)
    else currentTrackMemo before in
  let direction :=
    if journeyReplaced || positionReplaced
    then returnDirection (journeyStack after) tracks current
           (currentPosition after)
    else returnDirectionMemo before in
  mkHook after array calls current direction.

(** [isCurrentTrack(id)]: [currentTrack?.id === id], on the memo. *)
Definition isCurrentTrack (h : Hook) (name : string) : bool :=
  match currentTrackMemo h with
  | Some track => String.eqb (id track) name
  | None => false
  end.

(** [navigateToView]: without a matching track no cell is set and nothing
    is rendered; with one, [setJourneyStack] receives a new array and
    [setCurrentPosition] the array of the track. *)
Definition hookNavigateToView (h : Hook) (name : string)
    (context : option TrackContext) : Hook :=
  match find (findById name)
          (allTracksAsList (defaultArrays defaultTracks) (cells h)) with
  | None => h
  | Some matchingTrack =>
      rerender h
        (fst (navigateToView (defaultArrays defaultTracks) (cells h) name context))
        (arrayOf matchingTrack) true (registrations h)
  end.

Definition hookReturnToLast (h : Hook) : Hook :=
  match previousTrackId (journeyStack (cells h)) with
  | None => h
  | Some previous =>
      match find (findById previous)
              (allTracksAsList (defaultArrays defaultTracks) (cells h)) with
      | None => h
      | Some matchingTrack =>
          rerender h (fst (returnToLast (defaultArrays defaultTracks) (cells h)))
            (arrayOf matchingTrack) true (registrations h)
      end
  end.

(** [registerNewTracks] and [deregisterTracks] set the cell of the user
    maps to a new [Map] and nothing else. *)
Definition hookRegisterNewTracks (h : Hook) (owner : string)
    (initialTrackMap : TrackMap Render)
    (userStartPosition : option TrackPosition) : Hook :=
  rerender h
    (registerNewTracks (cells h) owner
       (userArrays (registrations h) initialTrackMap) userStartPosition)
    (positionArray h) false (S (registrations h)).

Definition hookDeregisterTracks (h : Hook) (owner : option string) : Hook :=
  rerender h (deregisterTracks (cells h) owner) (positionArray h) false
    (registrations h).

Definition hookStep (h : Hook) (a : Action Render TrackContext) : Hook :=
  match a with
  | NavigateToView name context => hookNavigateToView h name context
  | ReturnToLast => hookReturnToLast h
  | RegisterNewTracks owner tracks start =>
      hookRegisterNewTracks h owner tracks start
  | DeregisterTracks owner => hookDeregisterTracks h owner
  end.

Definition hookRun (actions : list (Action Render TrackContext)) : Hook :=
  fold_left hookStep actions initialHook.
End Renders.
End Hook.

Arguments Hook : clear implicits.

(** ** Example inputs *)

Definition view (x y : Z) (label : string) : TrackDefinition string :=
  mkTrack (x, y) label.

(** The default map of the scenario: [start] at the origin, a track on
    either side. *)
Definition scenarioTracks : TrackMap string :=
  [("start", view 0 0 "Start"); ("left", view (-1) 0 "Left");
   ("right", view 1 0 "Right")].

(** A linear flow that steps to the right and back to the left. *)
Definition thereAndBack : list (StepDefinition string) :=
  [mkStep "start" None "Start"; mkStep "form" (Some DirRight) "Form";
   mkStep "done" (Some DirLeft) "Done"].

(** One owner laying one track on the free position [(0, 1)]. *)
Definition appUserMap : JsMap.t (TrackMap string) :=
  [("app", [("a", view 0 1 "A")])].

(** Two owners, each laying one track on the free position [(0, 1)]. *)
Definition overlappingUserMaps : JsMap.t (TrackMap string) :=
  [("app", [("a", view 0 1 "A")]); ("menu", [("b", view 0 1 "B")])].

(** The provider after [navigateToView('right')]. *)
Definition atRight : State string string :=
  run scenarioTracks [NavigateToView "right" None] initialState.

(** The provider after [navigateToView('left')]. *)
Definition atLeft : State string string :=
  run scenarioTracks [NavigateToView "left" None] initialState.

(** A default map with a track whose id is the empty string. *)
Definition unnamedTracks : TrackMap string :=
  [("start", view 0 0 "Start"); ("", view 1 0 "Unnamed"); ("b", view 2 0 "B")].

(** The provider after [navigateToView('')] and [navigateToView('b')]. *)
Definition pastUnnamed : State string string :=
  run unnamedTracks [NavigateToView "" None; NavigateToView "b" None]
      initialState.

(** Two owners, one registered under the empty string, each with one
    track that has been visited with a context and left again. *)
Definition twoOwners : State string string :=
  run scenarioTracks
    [RegisterNewTracks "" [("a", view 0 1 "A")] None;
     RegisterNewTracks "menu" [("b", view 0 2 "B")] None;
     NavigateToView "a" (Some "ctxA"); NavigateToView "b" (Some "ctxB");
     ReturnToLast; ReturnToLast]
    initialState.

(** The provider after the owner [app] has laid the track [x] below the
    origin, the track has been visited, and the same owner has registered
    its map again from there: [x] has moved one step further down. *)
Definition afterRelaying : State string string :=
  run scenarioTracks
    [RegisterNewTracks "app" [("x", view 0 1 "X")] None;
     NavigateToView "x" None;
     RegisterNewTracks "app" [("x", view 0 1 "X")] None]
    initialState.

(** ** The merge and the linear flow, read as a whole *)

(** The entries of all user maps, in the order in which the two loops of
    [getTracksFromMap] visit them. *)
Definition candidates {Render : Type}
    (setOfUserMaps : JsMap.t (TrackMap Render))
    : list (string * TrackDefinition Render) :=
  concat (snd <$> setOfUserMaps).

(** An entry of the name [name] that lies off every position of [mapA]. *)
Definition candidateFor {Render : Type} (mapA : TrackMap Render)
    (name : string) (entry : string * TrackDefinition Render) : bool :=
  String.eqb (fst entry) name
  && bool_decide (position (snd entry) ∉ position <$> JsMap.values mapA).

(** [directionToPositionDelta(stepRef.direction || 'right')] *)
Definition stepDelta {Render : Type} (stepRef : StepDefinition Render)
    : TrackPosition :=
  directionToPositionDelta
    (match direction stepRef with Some d => d | None => DirRight end).

(** The sum of the deltas of a list of steps. *)
Definition sumDeltas {Render : Type} (steps : list (StepDefinition Render))
    : TrackPosition :=
  fold_right (fun stepRef p => (((stepDelta stepRef).1 + p.1)%Z,
                                ((stepDelta stepRef).2 + p.2)%Z))
             (0%Z, 0%Z) steps.

(** What a message of the merge says of the entry it is about, [final]
    being the union at the end of the loops. *)
Definition justified {Render : Type} (mapA final : TrackMap Render)
    (cands : list (string * TrackDefinition Render)) (message : Diagnostic)
    : Prop :=
  match message with
  | NameAlreadyRegistered name =>
      name ∈ JsMap.keys final ∧ name ∈ fst <$> cands
  | TrackConflict name positionRef =>
      positionRef ∈ position <$> JsMap.values mapA
      ∧ ∃ data, (name, data) ∈ cands ∧ position data = positionRef
  | NotAValidTrack _ => False
  end.

(** The default map of the scenario, every track with an array of its
    own. *)
Definition scenarioArrays : TrackMap (nat * string) :=
  [("start", mkTrack (0%Z, 0%Z) (0, "Start"));
   ("left", mkTrack ((-1)%Z, 0%Z) (1, "Left"));
   ("right", mkTrack (1%Z, 0%Z) (2, "Right"))].

(** The owner [app] lays the track [a] below the origin; [a] is visited,
    then [left]; the owner is deregistered. *)
Definition visitedAndRemoved : list (Action string string) :=
  [RegisterNewTracks "app" [("a", view 0 1 "A")] None;
   NavigateToView "a" None; NavigateToView "left" None;
   DeregisterTracks (Some "app")].

(** * Properties *)

Ltac distinct_keys :=
  unfold JsMap.wf; apply (bool_decide_unpack _); vm_compute; exact I.

Ltac listed := vm_compute; repeat constructor.

(** ** Insertion-ordered maps *)

Module JsMapFacts.
Import JsMap.

Section Facts.
Context {V : Type}.
Implicit Types (m : JsMap.t V) (k : string) (v : V).

Lemma get_None m k : get m k = None ↔ k ∉ keys m.
Proof.
  induction m as [|[k' v'] m IH]; simpl.
  - split; [intros _; apply not_elem_of_nil | done].
  - rewrite not_elem_of_cons. destruct (String.eqb_spec k' k) as [->|Hne].
    + split; [done | intros [? _]; done].
    + rewrite IH. split; [intros ?; split; [congruence | done] | tauto].
Qed.

Lemma has_false m k : has m k = false ↔ k ∉ keys m.
Proof.
  unfold has. rewrite <- get_None. destruct (get m k); split; congruence.
Qed.

Lemma set_fresh m k v : has m k = false → set m k v = m ++ [(k, v)].
Proof.
  induction m as [|[k' v'] m IH]; simpl; [done |].
  unfold has; simpl. destruct (String.eqb_spec k' k); [done |].
  intros H. f_equal. apply IH. exact H.
Qed.

Lemma delete_absent m k : get m k = None → delete m k = m.
Proof.
  induction m as [|[k' v'] m IH]; simpl; [done |].
  destruct (String.eqb_spec k' k); [done |].
  intros H. f_equal. by apply IH.
Qed.

Lemma get_delete m k k' :
  get (delete m k) k' = if String.eqb k k' then None else get m k'.
Proof.
  induction m as [|[k0 v0] m IH]; simpl.
  - by destruct (String.eqb k k').
  - destruct (String.eqb_spec k0 k) as [->|Hne].
    + rewrite IH. destruct (String.eqb_spec k k'); [done |].
      simpl. by destruct (String.eqb_spec k k').
    + simpl. rewrite IH.
      destruct (String.eqb_spec k0 k') as [->|]; [|done].
      by destruct (String.eqb_spec k k'); [congruence |].
Qed.

Lemma keys_app m1 m2 : keys (m1 ++ m2) = keys m1 ++ keys m2.
Proof. apply map_app. Qed.
End Facts.
End JsMapFacts.

(** ** Looking a track up by its id *)

Section Lookup.
Context {Render : Type}.
Implicit Types (tracks : list (TrackIterDefinition Render)) (name : string).

Lemma find_findById_Some tracks name view :
  find (findById name) tracks = Some view → view ∈ tracks ∧ id view = name.
Proof.
  induction tracks as [|t tracks IH]; simpl; [done |].
  unfold findById at 1. destruct (String.eqb_spec (id t) name) as [Heq|Hne].
  - intros [= <-]. split; [apply list_elem_of_here | done].
  - intros H. destruct (IH H) as [Hin Hid]. split; [by apply list_elem_of_further | done].
Qed.

Lemma find_findById_None tracks name :
  find (findById name) tracks = None ↔ ∀ view, view ∈ tracks → id view ≠ name.
Proof.
  induction tracks as [|t tracks IH]; simpl.
  - split; [intros _ view Hin; by apply elem_of_nil in Hin | done].
  - unfold findById at 1. destruct (String.eqb_spec (id t) name) as [Heq|Hne].
    + split; [done |]. intros H. destruct (H t); [apply list_elem_of_here | done].
    + rewrite IH. split.
      * intros H view [->|Hin]%elem_of_cons; [done | by apply H].
      * intros H view Hin. apply H. by apply list_elem_of_further.
Qed.

(** Where ids are unique, [find] returns the one track of that id. *)
Lemma find_findById_unique tracks name view :
  NoDup (id <$> tracks) → view ∈ tracks → id view = name →
  find (findById name) tracks = Some view.
Proof.
  induction tracks as [|t tracks IH]; simpl.
  - intros _ Hin. by apply elem_of_nil in Hin.
  - intros [Hnotin Hnd]%NoDup_cons [->|Hin]%elem_of_cons Hid.
    + unfold findById. by destruct (String.eqb_spec (id t) name).
    + unfold findById at 1. destruct (String.eqb_spec (id t) name) as [Heq|Hne].
      * exfalso. apply Hnotin. rewrite Heq, <- Hid. by apply list_elem_of_fmap_2.
      * by apply IH.
Qed.
End Lookup.

(** ** The merge *)

Section Merge.
Context {Render : Type}.
Implicit Types (mapA unionMap : TrackMap Render) (p q : TrackPosition).

Lemma samePosition_true p q : samePosition p q = true ↔ p = q.
Proof.
  unfold samePosition. destruct p as [px py], q as [qx qy]; simpl.
  rewrite andb_true_iff, !Z.eqb_eq. split; [intros [-> ->]; done | by intros [= -> ->]].
Qed.

Lemma scanPositions_None existingPositions index p :
  scanPositions existingPositions index p = None ↔
  p ∉ take index existingPositions.
Proof.
  induction index as [|index IH]; simpl.
  - rewrite take_0. split; [intros _; apply not_elem_of_nil | done].
  - destruct (existingPositions !! index) as [positionRef|] eqn:Hlook.
    + rewrite (take_S_r _ _ _ Hlook), not_elem_of_app, not_elem_of_cons.
      destruct (samePosition positionRef p) eqn:Hsame.
      * apply samePosition_true in Hsame as ->. split; [done | intros [_ [? _]]; done].
      * rewrite IH. split; [|tauto]. intros H. repeat split; [done | | apply not_elem_of_nil].
        intros ->. apply not_true_iff_false in Hsame. apply Hsame.
        by apply samePosition_true.
    + apply lookup_ge_None in Hlook.
      rewrite IH, !take_ge by lia. done.
Qed.

(** One entry either leaves the union alone or is appended to it; it is
    appended only under a new name and off every position of the array
    computed before the loops. *)
Lemma addTrack_cases existingPositions unionMap log entry :
  fst (addTrack existingPositions (unionMap, log) entry) = unionMap
  ∨ ((fst entry ∉ JsMap.keys unionMap)
     ∧ (position (snd entry) ∉ existingPositions)
     ∧ fst (addTrack existingPositions (unionMap, log) entry)
       = unionMap ++ [entry]).
Proof.
  destruct entry as [name data]. unfold addTrack.
  destruct (JsMap.has unionMap name) eqn:Hhas; [by left |].
  destruct (scanPositions _ _ _) eqn:Hscan; [by left |].
  right. apply JsMapFacts.has_false in Hhas.
  apply scanPositions_None in Hscan. rewrite take_ge in Hscan by lia.
  repeat split; [done | done |].
  simpl. apply JsMapFacts.set_fresh. by apply JsMapFacts.has_false.
Qed.

Lemma addTrack_invariant mapA acc entry :
  mergeInvariant mapA (fst acc) →
  mergeInvariant mapA
    (fst (addTrack (map position (JsMap.values mapA)) acc entry)).
Proof.
  destruct acc as [unionMap log]. intros (added & Hext & Hwf & Hoff).
  cbn [fst] in Hext, Hwf.
  destruct (addTrack_cases (map position (JsMap.values mapA)) unionMap log entry)
    as [->|(Hname & Hpos & ->)].
  - by exists added.
  - exists (added ++ [entry]). split; [by rewrite Hext, app_assoc |]. split.
    + unfold JsMap.wf. rewrite JsMapFacts.keys_app. simpl.
      apply NoDup_app. split; [done |]. split; [|apply NoDup_singleton].
      intros k Hk ->%list_elem_of_singleton. done.
    + intros e [He| ->%list_elem_of_singleton]%elem_of_app; [by apply Hoff | done].
Qed.

Lemma fold_addTrack_invariant mapA userMap acc :
  mergeInvariant mapA (fst acc) →
  mergeInvariant mapA
    (fst (fold_left (addTrack (map position (JsMap.values mapA))) userMap acc)).
Proof.
  revert acc. induction userMap as [|entry userMap IH]; simpl; [done |].
  intros acc Hacc. apply IH. by apply addTrack_invariant.
Qed.

Lemma mergeTracks_invariant mapA (setOfUserMaps : JsMap.t (TrackMap Render)) :
  JsMap.wf mapA → mergeInvariant mapA (fst (mergeTracks mapA setOfUserMaps)).
Proof.
  intros Hwf. unfold mergeTracks.
  assert (mergeInvariant mapA (fst (mapA, @nil Diagnostic))) as Hinit.
  { exists []. simpl. rewrite app_nil_r. repeat split; [done |].
    intros e He. by apply elem_of_nil in He. }
  revert Hinit. generalize (mapA, @nil Diagnostic) as acc.
  induction setOfUserMaps as [|[owner userMap] rest IH]; simpl; [done |].
  intros acc Hacc. apply IH. by apply fold_addTrack_invariant.
Qed.

(** No two tracks of the flattened list share an id. *)
Lemma getTracksFromMap_ids_NoDup mapA (setOfUserMaps : JsMap.t (TrackMap Render)) :
  JsMap.wf mapA → NoDup (id <$> getTracksFromMap mapA setOfUserMaps).
Proof.
  intros Hwf. destruct (mergeTracks_invariant mapA setOfUserMaps Hwf)
    as (added & _ & Hnd & _).
  unfold getTracksFromMap. rewrite <- list_fmap_compose.
  unfold JsMap.wf, JsMap.keys in Hnd.
  erewrite list_fmap_ext; [exact Hnd | done].
Qed.

(** A track that comes from a user map never lies on a position of the
    default map. *)
Lemma getTracksFromMap_off_default mapA (setOfUserMaps : JsMap.t (TrackMap Render)) track :
  JsMap.wf mapA →
  track ∈ getTracksFromMap mapA setOfUserMaps →
  (id track, definition track) ∈ mapA
  ∨ position (definition track) ∉ position <$> JsMap.values mapA.
Proof.
  intros Hwf Hin. destruct (mergeTracks_invariant mapA setOfUserMaps Hwf)
    as (added & Hext & _ & Hoff).
  unfold getTracksFromMap in Hin. apply list_elem_of_fmap in Hin as ([k d] & -> & Hin).
  simpl. rewrite Hext in Hin. apply elem_of_app in Hin as [Hin|Hin]; [by left |].
  right. by apply (Hoff (k, d)).
Qed.
(** C1, amended: whatever the default map and the user maps, a track of the
    flattened list that comes from a user map never lies on the position
    of a track of the default map, each candidate being compared with the
    positions of the default map before it is inserted. The default map is
    taken as it is. *)
Theorem getTracksFromMap_user_track_off_default
    mapA (setOfUserMaps : JsMap.t (TrackMap Render)) defaultTrack userTrack :
  JsMap.wf mapA →
  defaultTrack ∈ getTracksFromMap mapA setOfUserMaps →
  userTrack ∈ getTracksFromMap mapA setOfUserMaps →
  id defaultTrack ∈ JsMap.keys mapA →
  id userTrack ∉ JsMap.keys mapA →
  position (definition defaultTrack) ≠ position (definition userTrack).
Proof.
  intros Hwf HinD HinU HidD HidU.
  destruct (mergeTracks_invariant mapA setOfUserMaps Hwf)
    as (added & Hext & Hnd & Hoff).
  unfold getTracksFromMap in HinD, HinU. rewrite Hext in HinD, HinU.
  apply list_elem_of_fmap in HinD as ([kD dD] & -> & HinD).
  apply list_elem_of_fmap in HinU as ([kU dU] & -> & HinU).
  simpl in *. intros Hsame.
  apply elem_of_app in HinU as [HinU|HinU].
  { apply HidU. by apply (list_elem_of_fmap_2 fst _ (kU, dU)). }
  apply (Hoff _ HinU). simpl. rewrite <- Hsame.
  apply elem_of_app in HinD as [HinD|HinD].
  - unfold JsMap.values. rewrite <- list_fmap_compose.
    by apply (list_elem_of_fmap_2 (position ∘ snd) _ (kD, dD)).
  - exfalso. unfold JsMap.wf in Hnd. rewrite Hext, JsMapFacts.keys_app in Hnd.
    apply NoDup_app in Hnd as (_ & Hdisjoint & _).
    apply (Hdisjoint kD HidD). by apply (list_elem_of_fmap_2 fst _ (kD, dD)).
Qed.

(** The tracks of the default map are all in the flattened list, in their
    order and before every other track. *)
Lemma getTracksFromMap_keeps_default mapA (setOfUserMaps : JsMap.t (TrackMap Render)) :
  JsMap.wf mapA →
  ∃ added,
    getTracksFromMap mapA setOfUserMaps
    = map (fun entry => mkIter (fst entry) (snd entry)) mapA ++ added.
Proof.
  intros Hwf. destruct (mergeTracks_invariant mapA setOfUserMaps Hwf)
    as (added & Hext & _ & _).
  exists (map (fun entry => mkIter (fst entry) (snd entry)) added).
  unfold getTracksFromMap. by rewrite Hext, map_app.
Qed.
End Merge.

Lemma getTracksFromMap_user_track_off_default_witness :
  position (definition (mkIter "start" (view 0 0 "Start")))
  ≠ position (definition (mkIter "a" (view 0 1 "A"))).
Proof.
  apply (getTracksFromMap_user_track_off_default scenarioTracks appUserMap).
  - distinct_keys.
  - listed.
  - listed.
  - listed.
  - apply (bool_decide_unpack _). vm_compute. exact I.
Defined.

(** The linear flow of the documentation: a first step, one down, one to
    the right. *)
Example generateTracksFromSteps_down_right :
  generateTracksFromSteps
    [mkStep "a" None "A"; mkStep "b" (Some DirDown) "B";
     mkStep "c" (Some DirRight) "C"]
  = [("a", view 0 0 "A"); ("b", view 0 1 "B"); ("c", view 1 1 "C")].
Proof. reflexivity. Qed.

Example generateTracksFromSteps_thereAndBack :
  generateTracksFromSteps thereAndBack
  = [("start", view 0 0 "Start"); ("form", view 1 0 "Form");
     ("done", view 0 0 "Done")].
Proof. reflexivity. Qed.

(** C1, as stated, fails on a default map that has two tracks on one
    position, such as the map built from a linear flow that steps to the
    right and back to the left: with no user map at all, the flattened
    list has the first and the last step on the origin. *)
Lemma noSharedPosition_fails :
  ¬ noSharedPosition (generateTracksFromSteps thereAndBack) JsMap.empty.
Proof.
  unfold noSharedPosition. apply (bool_decide_unpack _). vm_compute. exact I.
Qed.

(** ** Navigation *)

Section Navigation.
Context {Render TrackContext : Type}.
Context (defaultTracks : TrackMap Render).
Implicit Types (st : State Render TrackContext) (stack : list string).

Lemma allTracksAsList_ids_NoDup st :
  JsMap.wf defaultTracks → NoDup (id <$> allTracksAsList defaultTracks st).
Proof. apply getTracksFromMap_ids_NoDup. Qed.

Lemma previousTrackId_short stack :
  length stack < 2 → previousTrackId stack = None.
Proof.
  intros Hlen. unfold previousTrackId, jsIndex.
  destruct (Z.ltb_spec (Z.of_nat (length stack) - 2) 0) as [|Hge]; [done | lia].
Qed.

Lemma previousTrackId_long stack previousId :
  2 ≤ length stack → stack !! (length stack - 2) = Some previousId →
  previousTrackId stack = if truthy previousId then Some previousId else None.
Proof.
  intros Hlen Hlook. unfold previousTrackId, jsIndex.
  destruct (Z.ltb_spec (Z.of_nat (length stack) - 2) 0) as [Hlt|_]; [lia |].
  replace (Z.to_nat (Z.of_nat (length stack) - 2)) with (length stack - 2) by lia.
  by rewrite Hlook.
Qed.

Lemma previousTrackId_Some stack previousId :
  previousTrackId stack = Some previousId →
  2 ≤ length stack ∧ stack !! (length stack - 2) = Some previousId
  ∧ previousId ≠ "".
Proof.
  intros Hprev. destruct (decide (length stack < 2)) as [Hshort|Hlong].
  - by rewrite previousTrackId_short in Hprev.
  - assert (2 ≤ length stack) as Hlen by lia.
    assert (is_Some (stack !! (length stack - 2))) as [p Hp]
      by (apply lookup_lt_is_Some_2; lia).
    rewrite (previousTrackId_long _ _ Hlen Hp) in Hprev.
    unfold truthy in Hprev.
    destruct (String.eqb p "") eqn:Hempty; simpl in Hprev; [done |].
    injection Hprev as <-. repeat split; [done | done |].
    intros ->. discriminate.
Qed.

Lemma truthy_true (s : string) : s ≠ "" → truthy s = true.
Proof. intros Hne. unfold truthy. by destruct (String.eqb_spec s ""). Qed.

Lemma navigateToView_resolved st name context view :
  JsMap.wf defaultTracks →
  view ∈ allTracksAsList defaultTracks st → id view = name →
  navigateToView defaultTracks st name context
  = (mkState (journeyStack st ++ [name]) (position (definition view))
       (userDefinedTrackMaps st) (<[name := context]> (contextMap st)), []).
Proof.
  intros Hwf Hin Hid. unfold navigateToView.
  rewrite (find_findById_unique _ name view);
    [| by apply allTracksAsList_ids_NoDup | done | done].
  by rewrite Hid.
Qed.

(** C3: for an id that names a track of the flattened list,
    [navigateToView] stores the context under that id (whatever was stored
    before, and also when the context is [undefined]), appends the id, and
    only it, to the journey, and moves the current position to the
    position of that track. The default map is a [Map]: its keys are
    distinct ([JsMap.wf]). *)
Theorem navigateToView_valid st name context view :
  JsMap.wf defaultTracks →
  view ∈ allTracksAsList defaultTracks st → id view = name →
  navigateToView defaultTracks st name context
  = (mkState (journeyStack st ++ [name]) (position (definition view))
       (userDefinedTrackMaps st) (<[name := context]> (contextMap st)), [])
  ∧ contextMap (fst (navigateToView defaultTracks st name context)) !! name
    = Some context
  ∧ length (journeyStack (fst (navigateToView defaultTracks st name context)))
    = S (length (journeyStack st)).
Proof.
  intros Hwf Hin Hid.
  rewrite (navigateToView_resolved st name context view) by done.
  simpl. split; [done |]. split.
  - apply lookup_insert_eq.
  - rewrite length_app. simpl. lia.
Qed.

(** C4: for an id that names no track of the flattened list,
    [navigateToView] returns the state it was given, journey, position and
    contexts included, and only writes the id on the console. *)
Theorem navigateToView_invalid st name context :
  (∀ view, view ∈ allTracksAsList defaultTracks st → id view ≠ name) →
  navigateToView defaultTracks st name context = (st, [NotAValidTrack name]).
Proof.
  intros Habsent. unfold navigateToView.
  apply find_findById_None in Habsent. by rewrite Habsent.
Qed.
End Navigation.

Lemma navigateToView_valid_witness :
  navigateToView scenarioTracks (@initialState string string) "left" (Some "ctx")
  = (mkState ["start"; "left"] ((-1)%Z, 0%Z) JsMap.empty
       (<["left" := Some "ctx"]> ∅), [])
  ∧ contextMap (fst (navigateToView scenarioTracks (@initialState string string)
                       "left" (Some "ctx"))) !! "left" = Some (Some "ctx")
  ∧ length (journeyStack (fst (navigateToView scenarioTracks
                                 (@initialState string string) "left" (Some "ctx"))))
    = 2.
Proof.
  apply (navigateToView_valid scenarioTracks initialState "left" (Some "ctx")
           (mkIter "left" (view (-1) 0 "Left"))).
  - distinct_keys.
  - listed.
  - reflexivity.
Defined.

Lemma navigateToView_invalid_witness :
  navigateToView scenarioTracks (@initialState string string) "missing" None
  = (initialState, [NotAValidTrack "missing"]).
Proof.
  apply (navigateToView_invalid scenarioTracks initialState "missing" None).
  intros v Hin. apply list_elem_of_In in Hin. vm_compute in Hin.
  intuition (subst; discriminate).
Defined.

(** ** Going back *)

Section Return.
Context {Render TrackContext : Type}.
Context (defaultTracks : TrackMap Render).
Implicit Types (st : State Render TrackContext) (stack : list string).

Lemma take_but_last stack lastId :
  last stack = Some lastId → take (length stack - 1) stack ++ [lastId] = stack.
Proof.
  intros [front ->]%last_Some. rewrite length_app. simpl.
  replace (length front + 1 - 1) with (length front) by lia.
  by rewrite take_app_length.
Qed.

Lemma returnToLast_short st :
  length (journeyStack st) < 2 → returnToLast defaultTracks st = (st, []).
Proof.
  intros Hlen. unfold returnToLast. by rewrite previousTrackId_short.
Qed.

Lemma returnToLast_empty_id st :
  2 ≤ length (journeyStack st) →
  journeyStack st !! (length (journeyStack st) - 2) = Some "" →
  returnToLast defaultTracks st = (st, []).
Proof.
  intros Hlen Hlook. unfold returnToLast.
  by rewrite (previousTrackId_long _ _ Hlen Hlook).
Qed.

Lemma returnToLast_resolved st previousId view :
  JsMap.wf defaultTracks →
  2 ≤ length (journeyStack st) →
  journeyStack st !! (length (journeyStack st) - 2) = Some previousId →
  previousId ≠ "" →
  view ∈ allTracksAsList defaultTracks st → id view = previousId →
  returnToLast defaultTracks st
  = (mkState (take (length (journeyStack st) - 1) (journeyStack st))
       (position (definition view)) (userDefinedTrackMaps st) (contextMap st),
     []).
Proof.
  intros Hwf Hlen Hlook Hne Hin Hid. unfold returnToLast.
  rewrite (previousTrackId_long _ _ Hlen Hlook), (truthy_true _ Hne).
  by rewrite (find_findById_unique _ previousId view);
    [| apply allTracksAsList_ids_NoDup | |].
Qed.

Lemma returnToLast_unresolved st previousId :
  2 ≤ length (journeyStack st) →
  journeyStack st !! (length (journeyStack st) - 2) = Some previousId →
  previousId ≠ "" →
  (∀ view, view ∈ allTracksAsList defaultTracks st → id view ≠ previousId) →
  returnToLast defaultTracks st = (st, [NotAValidTrack previousId]).
Proof.
  intros Hlen Hlook Hne Habsent. unfold returnToLast.
  rewrite (previousTrackId_long _ _ Hlen Hlook), (truthy_true _ Hne).
  apply find_findById_None in Habsent. by rewrite Habsent.
Qed.

(** C5, amended: [returnToLast] does nothing when the journey has fewer
    than two entries, and nothing when the entry before the last is the
    empty string. Otherwise, if that entry names a track of the flattened
    list, the journey loses its last entry and nothing else, the current
    position becomes the position of that track and the contexts are left
    alone; if it names no track, the state is unchanged. The default map
    is a [Map]: its keys are distinct ([JsMap.wf]). *)
Theorem returnToLast_spec st :
  JsMap.wf defaultTracks →
  (length (journeyStack st) < 2 → returnToLast defaultTracks st = (st, []))
  ∧ (2 ≤ length (journeyStack st) →
     ∀ previousId,
       journeyStack st !! (length (journeyStack st) - 2) = Some previousId →
       (previousId = "" → returnToLast defaultTracks st = (st, []))
       ∧ (previousId ≠ "" →
          (∀ view, view ∈ allTracksAsList defaultTracks st →
             id view = previousId →
             returnToLast defaultTracks st
             = (mkState (take (length (journeyStack st) - 1) (journeyStack st))
                  (position (definition view)) (userDefinedTrackMaps st)
                  (contextMap st), [])
             ∧ ∀ lastId, last (journeyStack st) = Some lastId →
                 journeyStack (fst (returnToLast defaultTracks st)) ++ [lastId]
                 = journeyStack st)
          ∧ ((∀ view, view ∈ allTracksAsList defaultTracks st →
                id view ≠ previousId) →
             returnToLast defaultTracks st = (st, [NotAValidTrack previousId])))).
Proof.
  intros Hwf. split; [apply returnToLast_short |].
  intros Hlen previousId Hlook. split; [intros ->; by apply returnToLast_empty_id |].
  intros Hne. split.
  - intros view Hin Hid.
    rewrite (returnToLast_resolved st previousId view) by done.
    split; [done |]. intros lastId Hlast. simpl. by apply take_but_last.
  - by apply returnToLast_unresolved.
Qed.
End Return.

Lemma returnToLast_spec_witness :
  returnToLast scenarioTracks atLeft
  = (mkState ["start"] (0%Z, 0%Z) JsMap.empty (contextMap atLeft), []).
Proof.
  destruct (returnToLast_spec scenarioTracks atLeft) as [_ Hlong];
    [distinct_keys |].
  assert (2 ≤ length (journeyStack atLeft)) as Hlen by (vm_compute; lia).
  destruct (Hlong Hlen "start" eq_refl) as [_ Hnamed].
  destruct Hnamed as [Hresolved _]; [discriminate |].
  destruct (Hresolved (mkIter "start" (view 0 0 "Start"))) as [Heq _];
    [listed | reflexivity |].
  exact Heq.
Defined.

(** C5, as stated, fails where the entry before the last is the empty
    string: the track of that id is in the flattened list, yet
    [returnToLast] leaves the journey and the position as they are. *)
Lemma returnToLast_by_length_fails :
  ¬ returnToLast_by_length unnamedTracks pastUnnamed.
Proof.
  intros [_ Hlong].
  assert (2 ≤ length (journeyStack pastUnnamed)) as Hlen by (vm_compute; lia).
  destruct (Hlong Hlen "" eq_refl) as [Hresolved _].
  specialize (Hresolved (mkIter "" (view 1 0 "Unnamed"))).
  apply (f_equal journeyStack) in Hresolved; [| listed | reflexivity].
  vm_compute in Hresolved. discriminate Hresolved.
Qed.

(** ** The direction of the way back *)

Section ReturnDirection.
Context {Render : Type}.
Implicit Types (stack : list string) (tracks : list (TrackIterDefinition Render))
  (current : option (TrackIterDefinition Render)) (pos : TrackPosition).

Lemma returnDirection_resolved stack tracks current pos previousId previousView :
  NoDup (id <$> tracks) →
  2 ≤ length stack → stack !! (length stack - 2) = Some previousId →
  previousId ≠ "" →
  previousView ∈ tracks → id previousView = previousId → is_Some current →
  returnDirection stack tracks current pos
  = let dX := ((position (definition previousView)).1 - pos.1)%Z in
    if (dX <? 0)%Z then Some Left
    else if (dX >? 0)%Z then Some Right else Some Top.
Proof.
  intros Hnd Hlen Hlook Hne Hin Hid [track ->]. unfold returnDirection.
  rewrite (previousTrackId_long _ _ Hlen Hlook), (truthy_true _ Hne).
  by rewrite (find_findById_unique _ previousId previousView).
Qed.

(** The body of the [returnDirection] memo, whenever it is run: it gives
    [null] when the journey has no entry before the last one, when that entry is the empty string, or when its
    track or the current track cannot be resolved. Otherwise it is decided
    by the horizontal delta alone: ['left'] when the previous track lies to
    the left of the current position, ['right'] when it lies to the right,
    and ['top'] when the delta is zero, whatever the vertical delta. The
    list of tracks has no two tracks of one id, as every flattened list
    has ([getTracksFromMap_ids_NoDup]). *)
Theorem returnDirection_spec stack tracks current pos :
  NoDup (id <$> tracks) →
  (length stack < 2 → returnDirection stack tracks current pos = None)
  ∧ (2 ≤ length stack →
     ∀ previousId, stack !! (length stack - 2) = Some previousId →
       (previousId = "" → returnDirection stack tracks current pos = None)
       ∧ (((∀ view, view ∈ tracks → id view ≠ previousId) ∨ current = None) →
          returnDirection stack tracks current pos = None)
       ∧ (previousId ≠ "" →
          ∀ previousView, previousView ∈ tracks → id previousView = previousId →
          is_Some current →
          let dX := ((position (definition previousView)).1 - pos.1)%Z in
          ((dX < 0)%Z → returnDirection stack tracks current pos = Some Left)
          ∧ ((0 < dX)%Z → returnDirection stack tracks current pos = Some Right)
          ∧ (dX = 0%Z → returnDirection stack tracks current pos = Some Top))).
Proof.
  intros Hnd. split.
  { intros Hlen. unfold returnDirection. by rewrite previousTrackId_short. }
  intros Hlen previousId Hlook. split; [|split].
  - intros ->. unfold returnDirection.
    by rewrite (previousTrackId_long _ _ Hlen Hlook).
  - intros Hmissing. unfold returnDirection.
    destruct (previousTrackId stack) as [previous|] eqn:Hprev; [|done].
    apply previousTrackId_Some in Hprev as (_ & Hlook' & _).
    assert (previous = previousId) as -> by congruence.
    destruct Hmissing as [Habsent| ->].
    + apply find_findById_None in Habsent. by rewrite Habsent.
    + by destruct (find _ _).
  - intros Hne previousView Hin Hid Hcur dX.
    rewrite (returnDirection_resolved _ _ _ _ previousId previousView) by done.
    fold dX. cbv zeta. rewrite Z.gtb_ltb.
    destruct (Z.ltb_spec dX 0), (Z.ltb_spec 0 dX);
      repeat split; intros; (done || lia).
Qed.
End ReturnDirection.

Lemma returnDirection_spec_witness :
  returnDirection (journeyStack atLeft)
    (allTracksAsList scenarioTracks atLeft)
    (currentTrack (allTracksAsList scenarioTracks atLeft) (currentPosition atLeft))
    (currentPosition atLeft)
  = Some Right.
Proof.
  destruct (returnDirection_spec (journeyStack atLeft)
              (allTracksAsList scenarioTracks atLeft)
              (currentTrack (allTracksAsList scenarioTracks atLeft)
                 (currentPosition atLeft))
              (currentPosition atLeft)) as [_ Hlong].
  - apply (bool_decide_unpack _). vm_compute. exact I.
  - assert (2 ≤ length (journeyStack atLeft)) as Hlen by (vm_compute; lia).
    destruct (Hlong Hlen "start" eq_refl) as (_ & _ & Hnamed).
    destruct (Hnamed ltac:(discriminate) (mkIter "start" (view 0 0 "Start")))
      as (_ & Hright & _); [listed | reflexivity | by eexists |].
    apply Hright. reflexivity.
Defined.

(** Read by the length of the journey alone, the body of the memo is
    misdescribed where the entry before the last is the empty string: its
    track and the current track are both in the flattened list and the
    previous track lies to the left, yet the body gives [null]. *)
Lemma returnDirection_by_length_fails :
  ¬ returnDirection_by_length (journeyStack pastUnnamed)
      (allTracksAsList unnamedTracks pastUnnamed)
      (currentTrack (allTracksAsList unnamedTracks pastUnnamed)
         (currentPosition pastUnnamed))
      (currentPosition pastUnnamed).
Proof.
  intros [_ Hlong].
  assert (2 ≤ length (journeyStack pastUnnamed)) as Hlen by (vm_compute; lia).
  destruct (Hlong Hlen "" eq_refl) as [_ Hdirection].
  destruct (Hdirection (mkIter "" (view 1 0 "Unnamed"))) as (Hleft & _);
    [listed | reflexivity | by eexists |].
  specialize (Hleft ltac:(reflexivity)).
  vm_compute in Hleft. discriminate Hleft.
Qed.

(** ** Going back and forth *)

Section RoundTrip.
Context {Render TrackContext : Type}.
Context (defaultTracks : TrackMap Render).
Implicit Types (st : State Render TrackContext).

(** C8, amended: from a state whose journey has at least two entries, whose
    entry before the last is not the empty string and names a track, and
    whose last entry names a track, [returnToLast] followed by
    [navigateToView] to the id just left gives the journey back as it was
    (hence a net change of length of zero) and puts the current position on
    the track just left, which is the prior position whenever the state
    stood on that track. The user maps are untouched. The context stored
    under that id is overwritten, so the state is restored only if that
    context was already the one passed. *)
Theorem returnToLast_then_navigateToView
    st context previousId leftId previousView view :
  JsMap.wf defaultTracks →
  2 ≤ length (journeyStack st) →
  last (journeyStack st) = Some leftId →
  journeyStack st !! (length (journeyStack st) - 2) = Some previousId →
  previousId ≠ "" →
  previousView ∈ allTracksAsList defaultTracks st → id previousView = previousId →
  view ∈ allTracksAsList defaultTracks st → id view = leftId →
  journeyStack (returnThenNavigate defaultTracks st leftId context)
  = journeyStack st
  ∧ currentPosition (returnThenNavigate defaultTracks st leftId context)
    = position (definition view)
  ∧ (currentPosition st = position (definition view) →
     currentPosition (returnThenNavigate defaultTracks st leftId context)
     = currentPosition st)
  ∧ userDefinedTrackMaps (returnThenNavigate defaultTracks st leftId context)
    = userDefinedTrackMaps st
  ∧ contextMap (returnThenNavigate defaultTracks st leftId context)
    = <[leftId := context]> (contextMap st)
  ∧ (contextMap st !! leftId ≠ Some context →
     returnThenNavigate defaultTracks st leftId context ≠ st).
Proof.
  intros Hwf Hlen Hlast Hlook Hne HinP HidP Hin Hid.
  unfold returnThenNavigate.
  rewrite (returnToLast_resolved defaultTracks st previousId previousView) by done.
  cbn [fst].
  rewrite (navigateToView_resolved defaultTracks
    (mkState (take (length (journeyStack st) - 1) (journeyStack st))
       (position (definition previousView)) (userDefinedTrackMaps st)
       (contextMap st)) leftId context view Hwf Hin Hid).
  cbn [fst journeyStack currentPosition userDefinedTrackMaps contextMap].
  split; [by apply take_but_last |]. split; [done |]. split; [done |].
  split; [done |]. split; [done |].
  intros Hctx Heq. apply Hctx. rewrite <- Heq. simpl. apply lookup_insert_eq.
Qed.
End RoundTrip.

Lemma returnToLast_then_navigateToView_witness :
  journeyStack (returnThenNavigate scenarioTracks atLeft "left" (Some "again"))
  = ["start"; "left"]
  ∧ currentPosition (returnThenNavigate scenarioTracks atLeft "left" (Some "again"))
    = ((-1)%Z, 0%Z)
  ∧ returnThenNavigate scenarioTracks atLeft "left" (Some "again") ≠ atLeft.
Proof.
  destruct (returnToLast_then_navigateToView scenarioTracks atLeft (Some "again")
              "start" "left" (mkIter "start" (view 0 0 "Start"))
              (mkIter "left" (view (-1) 0 "Left")))
    as (Hstack & Hpos & _ & _ & _ & Hdiffers).
  - distinct_keys.
  - vm_compute; lia.
  - reflexivity.
  - reflexivity.
  - discriminate.
  - listed.
  - reflexivity.
  - listed.
  - reflexivity.
  - split; [exact Hstack |]. split; [exact Hpos |].
    apply Hdiffers. vm_compute. discriminate.
Defined.

(** Where [returnToLast] does nothing, here because the entry before the
    last is the empty string, the id just left is appended once more and
    the journey grows by one entry. *)
Lemma returnThenNavigate_after_noop :
  journeyStack (returnThenNavigate unnamedTracks pastUnnamed "b" None)
  = ["start"; ""; "b"; "b"].
Proof. reflexivity. Qed.

(** Where the track just left is no longer on the current position, the
    position after the round trip is the track's, not the prior one. *)
Lemma returnThenNavigate_moved_track :
  journeyStack afterRelaying = ["start"; "x"]
  ∧ currentPosition afterRelaying = (0%Z, 1%Z)
  ∧ currentPosition (returnThenNavigate scenarioTracks afterRelaying "x" None)
    = (0%Z, 2%Z).
Proof. repeat split. Qed.

(** C8, as stated, fails on the scenario: after [navigateToView('left')],
    going back and navigating to ['left'] again gives a journey of the
    length it had, so the length is restored. *)
Lemma roundTrip_changes_length_fails :
  ¬ roundTrip_changes_length scenarioTracks atLeft None.
Proof.
  intros Hstated.
  destruct (Hstated "left" (mkIter "left" (view (-1) 0 "Left")))
    as (_ & Hlength & _).
  - vm_compute; lia.
  - reflexivity.
  - listed.
  - reflexivity.
  - apply Hlength. vm_compute. reflexivity.
Qed.

(** ** The journey is never empty *)

Section Journey.
Context {Render TrackContext : Type}.
Context (defaultTracks : TrackMap Render).
Implicit Types (st : State Render TrackContext)
  (a : Action Render TrackContext).

Lemma navigateToView_journey st name context :
  journeyStack (fst (navigateToView defaultTracks st name context))
  = journeyStack st
  ∨ journeyStack (fst (navigateToView defaultTracks st name context))
    = journeyStack st ++ [name].
Proof.
  unfold navigateToView.
  destruct (find _ _) as [track|] eqn:Hfind; [|by left].
  apply find_findById_Some in Hfind as [_ ->]. by right.
Qed.

Lemma returnToLast_journey st :
  journeyStack (fst (returnToLast defaultTracks st)) = journeyStack st
  ∨ (2 ≤ length (journeyStack st)
     ∧ journeyStack (fst (returnToLast defaultTracks st))
       = take (length (journeyStack st) - 1) (journeyStack st)
     ∧ S (length (journeyStack (fst (returnToLast defaultTracks st))))
       = length (journeyStack st)).
Proof.
  unfold returnToLast.
  destruct (previousTrackId _) as [previous|] eqn:Hprev; [|by left].
  destruct (find _ _); [|by left].
  right. apply previousTrackId_Some in Hprev as (Hlen & _ & _).
  simpl. split; [done |]. split; [done |]. rewrite length_take. lia.
Qed.

Lemma step_journey_nonempty st a :
  journeyStack st ≠ [] → journeyStack (step defaultTracks st a) ≠ [].
Proof.
  intros Hne. destruct a as [name context| |owner tracks start|owner]; simpl.
  - destruct (navigateToView_journey st name context) as [-> | ->]; [done |].
    by destruct (journeyStack st).
  - destruct (returnToLast_journey st) as [-> |(Hlen & _ & Hshrunk)]; [done |].
    intros Hnil. rewrite Hnil in Hshrunk. simpl in Hshrunk. lia.
  - done.
  - unfold deregisterTracks. destruct owner as [s|]; [|done].
    by destruct (truthy s).
Qed.

Lemma run_journey_nonempty (actions : list (Action Render TrackContext)) st :
  journeyStack st ≠ [] → journeyStack (run defaultTracks actions st) ≠ [].
Proof.
  revert st. induction actions as [|a actions IH]; simpl; [done |].
  intros st Hne. apply IH. by apply step_journey_nonempty.
Qed.

(** C9: whatever sequence of [navigateToView], [returnToLast],
    [registerNewTracks] and [deregisterTracks] calls is run from the initial
    state, the journey is not empty afterwards. [navigateToView] leaves the
    journey alone or appends one id; [returnToLast] leaves it alone or, on a
    journey of at least two entries, drops one entry, the last; the two
    other actions do not touch it. *)
Theorem journeyStack_never_empty :
  (∀ actions : list (Action Render TrackContext),
     journeyStack (run defaultTracks actions initialState) ≠ [])
  ∧ (∀ st name context,
       journeyStack (fst (navigateToView defaultTracks st name context))
       = journeyStack st
       ∨ journeyStack (fst (navigateToView defaultTracks st name context))
         = journeyStack st ++ [name])
  ∧ (∀ st,
       journeyStack (fst (returnToLast defaultTracks st)) = journeyStack st
       ∨ (2 ≤ length (journeyStack st)
          ∧ journeyStack (fst (returnToLast defaultTracks st))
            = take (length (journeyStack st) - 1) (journeyStack st)
          ∧ S (length (journeyStack (fst (returnToLast defaultTracks st))))
            = length (journeyStack st)))
  ∧ (∀ st owner tracks start,
       journeyStack (registerNewTracks st owner tracks start) = journeyStack st)
  ∧ (∀ st owner, journeyStack (deregisterTracks st owner) = journeyStack st).
Proof.
  split; [|split; [|split; [|split]]].
  - intros actions. by apply run_journey_nonempty.
  - apply navigateToView_journey.
  - apply returnToLast_journey.
  - done.
  - intros st owner. unfold deregisterTracks. destruct owner as [s|]; [|done].
    by destruct (truthy s).
Qed.
End Journey.

(** ** Removing user maps *)

Section Deregister.
Context {Render TrackContext : Type}.
Implicit Types (st : State Render TrackContext)
  (contexts : gmap string (option TrackContext)).

Lemma lookup_delete_keys contexts (keysToDelete : list string) key :
  fold_left (fun contexts key => delete key contexts) keysToDelete contexts !! key
  = if bool_decide (key ∈ keysToDelete) then None else contexts !! key.
Proof.
  revert contexts. induction keysToDelete as [|k rest IH]; intros contexts;
    cbn [fold_left].
  - rewrite bool_decide_eq_false_2; [done | apply not_elem_of_nil].
  - rewrite IH. case_bool_decide as Hrest; case_bool_decide as Hall; try done.
    + exfalso. by apply Hall, list_elem_of_further.
    + apply elem_of_cons in Hall as [->|?]; [apply lookup_delete_eq | done].
    + apply lookup_delete_ne. intros ->. apply Hall, list_elem_of_here.
Qed.

Lemma deregisterTracks_owner st owner :
  owner ≠ "" →
  deregisterTracks st (Some owner)
  = mkState (journeyStack st) (currentPosition st)
      (JsMap.delete (userDefinedTrackMaps st) owner)
      (fold_left (fun contexts key => delete key contexts)
         (keysToRemove st owner) (contextMap st)).
Proof. intros Hne. unfold deregisterTracks. by rewrite truthy_true. Qed.

Lemma deregisterTracks_noOwner st owner :
  noOwner owner = true →
  deregisterTracks st owner
  = mkState (journeyStack st) (currentPosition st) JsMap.empty (contextMap st).
Proof.
  unfold noOwner, deregisterTracks. destruct owner as [s|]; [|done].
  by destruct (truthy s).
Qed.

(** C7, amended: [deregisterTracks] with an owner id that is not the empty
    string removes the map of that owner, and of no other owner, from the
    user maps, and removes from the context store the ids of that map, and
    no other id; the flattened list is then the merge of the maps that are
    left. [deregisterTracks] with no owner, or with the empty string,
    removes every user map at once, which leaves the tracks of the default
    map as the flattened list, and leaves the context store as it is.
    Neither touches the journey or the position. *)
Theorem deregisterTracks_spec st :
  (∀ owner, owner ≠ "" →
     (∀ other,
        JsMap.get (userDefinedTrackMaps (deregisterTracks st (Some owner))) other
        = if String.eqb owner other then None
          else JsMap.get (userDefinedTrackMaps st) other)
     ∧ (∀ key,
          contextMap (deregisterTracks st (Some owner)) !! key
          = if bool_decide (key ∈ keysToRemove st owner) then None
            else contextMap st !! key)
     ∧ (∀ defaultTracks,
          allTracksAsList defaultTracks (deregisterTracks st (Some owner))
          = getTracksFromMap defaultTracks
              (JsMap.delete (userDefinedTrackMaps st) owner))
     ∧ journeyStack (deregisterTracks st (Some owner)) = journeyStack st
     ∧ currentPosition (deregisterTracks st (Some owner)) = currentPosition st)
  ∧ (∀ owner, noOwner owner = true →
     userDefinedTrackMaps (deregisterTracks st owner) = JsMap.empty
     ∧ contextMap (deregisterTracks st owner) = contextMap st
     ∧ (∀ defaultTracks,
          allTracksAsList defaultTracks (deregisterTracks st owner)
          = map (fun entry => mkIter (fst entry) (snd entry)) defaultTracks)
     ∧ journeyStack (deregisterTracks st owner) = journeyStack st
     ∧ currentPosition (deregisterTracks st owner) = currentPosition st).
Proof.
  split.
  - intros owner Hne. rewrite (deregisterTracks_owner st owner Hne). simpl.
    split; [intros other; apply JsMapFacts.get_delete |].
    split; [intros key; apply lookup_delete_keys | done].
  - intros owner Hnone. by rewrite (deregisterTracks_noOwner st owner Hnone).
Qed.

(** C10: [deregisterTracks] with an owner id that is not the empty string and
    under which no map is registered returns the state it was given: the
    user maps, hence the flattened list, and the context store are
    unchanged. *)
Theorem deregisterTracks_unknown_owner st owner :
  owner ≠ "" → JsMap.get (userDefinedTrackMaps st) owner = None →
  deregisterTracks st (Some owner) = st
  ∧ ∀ defaultTracks,
      allTracksAsList defaultTracks (deregisterTracks st (Some owner))
      = allTracksAsList defaultTracks st.
Proof.
  intros Hne Hnone.
  assert (deregisterTracks st (Some owner) = st) as ->; [|done].
  rewrite (deregisterTracks_owner st owner Hne). unfold keysToRemove.
  rewrite Hnone, (JsMapFacts.delete_absent _ _ Hnone). simpl. by destruct st.
Qed.
End Deregister.

Lemma deregisterTracks_spec_witness :
  JsMap.get (userDefinedTrackMaps (deregisterTracks twoOwners (Some "menu"))) ""
  = Some [("a", view 0 1 "A")]
  ∧ contextMap (deregisterTracks twoOwners (Some "menu")) !! "b" = None
  ∧ contextMap (deregisterTracks twoOwners (Some "menu")) !! "a"
    = Some (Some "ctxA")
  ∧ userDefinedTrackMaps (deregisterTracks twoOwners None) = JsMap.empty
  ∧ contextMap (deregisterTracks twoOwners None) = contextMap twoOwners.
Proof.
  destruct (deregisterTracks_spec twoOwners) as [Howner Hnone].
  destruct (Howner "menu") as (Hmaps & Hcontexts & _); [discriminate |].
  destruct (Hnone None) as (Hcleared & Hkept & _); [reflexivity |].
  split; [exact (Hmaps "") |].
  split; [exact (Hcontexts "b") |].
  split; [exact (Hcontexts "a") |].
  split; [exact Hcleared | exact Hkept].
Defined.

(** C7, as stated, fails for the owner id that is the empty string: passed
    explicitly, it empties the user maps of every owner and purges no
    context. *)
Lemma deregisterTracks_by_presence_fails :
  ¬ deregisterTracks_by_presence twoOwners.
Proof.
  intros [Howner _]. destruct (Howner "") as [Hmaps _].
  specialize (Hmaps "menu"). vm_compute in Hmaps. discriminate Hmaps.
Qed.

Lemma deregisterTracks_unknown_owner_witness :
  deregisterTracks twoOwners (Some "nobody") = twoOwners
  ∧ ∀ defaultTracks : TrackMap string,
      allTracksAsList defaultTracks (deregisterTracks twoOwners (Some "nobody"))
      = allTracksAsList defaultTracks twoOwners.
Proof.
  apply (deregisterTracks_unknown_owner twoOwners "nobody").
  - discriminate.
  - reflexivity.
Defined.

(** ** Registering user maps *)

Section Register.
Context {Render TrackContext : Type}.
Implicit Types (st : State Render TrackContext) (tracks : TrackMap Render).

(** A coordinate of the start position is used unless it is missing or
    zero; the coordinate of the current position stands in for it then. *)
Lemma offset_cases (user : option Z) (current : Z) :
  offset user current
  = match user with
    | Some n => if (n =? 0)%Z then current else n
    | None => current
    end.
Proof.
  unfold offset, orNumber. destruct user as [n|].
  - destruct (Z.eqb_spec n 0) as [->|Hn].
    + by destruct (Z.eqb_spec current 0) as [->|].
    + by destruct (Z.eqb_spec n 0).
  - by destruct (Z.eqb_spec current 0) as [->|].
Qed.

Lemma fold_translate_fresh offsetX offsetY tracks (userTargetMap : TrackMap Render) :
  NoDup (JsMap.keys userTargetMap ++ JsMap.keys tracks) →
  fold_left
    (fun userTargetMap entry =>
       JsMap.set userTargetMap (fst entry)
         (mkTrack ((offsetX + (position (snd entry)).1)%Z,
                   (offsetY + (position (snd entry)).2)%Z)
                  (render (snd entry))))
    tracks userTargetMap
  = userTargetMap
    ++ map (fun entry =>
              (fst entry,
               mkTrack ((offsetX + (position (snd entry)).1)%Z,
                        (offsetY + (position (snd entry)).2)%Z)
                       (render (snd entry))))
         tracks.
Proof.
  revert userTargetMap. induction tracks as [|[name data] tracks IH];
    intros userTargetMap Hnd; simpl.
  - by rewrite app_nil_r.
  - simpl in Hnd. apply NoDup_app in Hnd as (HndT & Hdisjoint & [Hname HndR]%NoDup_cons).
    rewrite JsMapFacts.set_fresh.
    + rewrite IH; [by rewrite <- app_assoc |].
      rewrite JsMapFacts.keys_app. simpl. rewrite <- app_assoc. simpl.
      apply NoDup_app. split; [done |]. split.
      * intros k Hk [->|Hin]%elem_of_cons.
        -- apply (Hdisjoint name Hk), list_elem_of_here.
        -- by apply (Hdisjoint k Hk), list_elem_of_further.
      * by apply NoDup_cons.
    + apply JsMapFacts.has_false. intros Hin.
      apply (Hdisjoint name Hin), list_elem_of_here.
Qed.

(** The map stored for an owner is the map passed, entry by entry, with
    every position moved by the two offsets and every render function
    passed through. *)
Lemma registerNewTracks_translates st owner tracks start :
  JsMap.wf tracks →
  JsMap.get (userDefinedTrackMaps (registerNewTracks st owner tracks start)) owner
  = Some (map (fun entry =>
                 (fst entry,
                  mkTrack
                    ((offset (fst <$> start) (currentPosition st).1
                      + (position (snd entry)).1)%Z,
                     (offset (snd <$> start) (currentPosition st).2
                      + (position (snd entry)).2)%Z)
                    (render (snd entry))))
            tracks).
Proof.
  intros Hwf. unfold registerNewTracks, translateTracks. simpl.
  rewrite fold_translate_fresh by done. simpl.
  generalize (userDefinedTrackMaps st) as maps.
  induction maps as [|[k v] maps IH]; simpl.
  - by rewrite String.eqb_refl.
  - destruct (String.eqb_spec k owner) as [->|Hne]; simpl.
    + by rewrite String.eqb_refl.
    + by destruct (String.eqb_spec k owner).
Qed.
End Register.

(** C2: the start position passed is not used as it is where one of its
    coordinates is zero. After [navigateToView('right')] the current
    position is [(1, 0)]; registering the track [x] at [(0, 1)] with the
    start position [(0, 0)] stores it at [(1, 1)], the zero abscissa having
    been replaced by the abscissa of the current position, and not at
    [(0 + 0, 0 + 1)], where the given coordinates would put it. *)
Theorem registerNewTracks_zero_start_coordinate :
  currentPosition atRight = (1%Z, 0%Z)
  ∧ userDefinedTrackMaps
      (registerNewTracks atRight "app" [("x", view 0 1 "X")] (Some (0%Z, 0%Z)))
    = [("app", [("x", view 1 1 "X")])]
  ∧ userDefinedTrackMaps
      (registerNewTracks atRight "app" [("x", view 0 1 "X")] (Some (0%Z, 0%Z)))
    ≠ [("app", [("x", view (0 + 0) (0 + 1) "X")])].
Proof. split; [reflexivity |]. split; [reflexivity | discriminate]. Qed.

(** ** Tracks of two user maps on one position *)

(** Two tracks laid by user maps can share a position that is free in the
    default map. Each one is only compared with the positions of the
    default map, collected before the loops, so both are inserted and
    nothing is written on the console: with [a] and [b] registered at
    [(0, 1)] by two owners, the flattened list has both, on the same
    position, although the default map has no two tracks on one position. *)
Lemma getTracksFromMap_user_tracks_overlap :
  userDefinedTrackMaps
    (run scenarioTracks
       [RegisterNewTracks "app" [("a", view 0 1 "A")] None;
        RegisterNewTracks "menu" [("b", view 0 1 "B")] None]
       (@initialState string string))
  = overlappingUserMaps
  ∧ NoDup (position <$> JsMap.values scenarioTracks)
  ∧ getTracksFromMap scenarioTracks overlappingUserMaps
    = [mkIter "start" (view 0 0 "Start"); mkIter "left" (view (-1) 0 "Left");
       mkIter "right" (view 1 0 "Right"); mkIter "a" (view 0 1 "A");
       mkIter "b" (view 0 1 "B")]
  ∧ snd (mergeTracks scenarioTracks overlappingUserMaps) = []
  ∧ ¬ NoDup ((fun track => position (definition track))
             <$> getTracksFromMap scenarioTracks overlappingUserMaps).
Proof.
  split; [reflexivity |].
  split; [apply (bool_decide_unpack _); vm_compute; exact I |].
  split; [reflexivity |]. split; [reflexivity |].
  apply (bool_decide_unpack _). vm_compute. exact I.
Qed.

(** * Further properties *)

(** ** More on insertion-ordered maps *)

Module JsMapUpdates.
Import JsMap.

Section Updates.
Context {V : Type}.
Implicit Types (m : JsMap.t V) (k : string) (v : V).

Lemma get_set m k v k' :
  get (set m k v) k' = if String.eqb k k' then Some v else get m k'.
Proof.
  induction m as [|[k0 v0] m IH]; simpl.
  - by destruct (String.eqb k k').
  - destruct (String.eqb_spec k0 k) as [->|Hne]; simpl.
    + by destruct (String.eqb k k').
    + rewrite IH. destruct (String.eqb_spec k0 k') as [->|]; [|done].
      by destruct (String.eqb_spec k k'); [congruence |].
Qed.

Lemma keys_set m k v :
  keys (set m k v) = if has m k then keys m else keys m ++ [k].
Proof.
  induction m as [|[k0 v0] m IH]; simpl; [done |].
  unfold has in *. simpl. destruct (String.eqb_spec k0 k) as [->|Hne]; simpl.
  - done.
  - rewrite IH. by destruct (get m k).
Qed.

Lemma set_set m k v v' : set (set m k v) k v' = set m k v'.
Proof.
  induction m as [|[k0 v0] m IH]; simpl.
  - by rewrite String.eqb_refl.
  - destruct (String.eqb_spec k0 k) as [->|Hne]; simpl.
    + by rewrite String.eqb_refl.
    + destruct (String.eqb_spec k0 k); [done |]. by rewrite IH.
Qed.

Lemma delete_set_absent m k v : get m k = None → delete (set m k v) k = m.
Proof.
  induction m as [|[k0 v0] m IH]; simpl.
  - by rewrite String.eqb_refl.
  - destruct (String.eqb_spec k0 k) as [->|Hne]; [done |].
    intros Hnone. simpl. destruct (String.eqb_spec k0 k); [done |].
    by rewrite IH.
Qed.

Lemma elem_of_set m k v (entry : string * V) :
  entry ∈ set m k v → entry = (k, v) ∨ entry ∈ m.
Proof.
  induction m as [|[k0 v0] m IH]; simpl.
  - intros ->%list_elem_of_singleton. by left.
  - destruct (String.eqb_spec k0 k) as [->|Hne].
    + intros [->|Hin]%elem_of_cons; [by left |].
      right. by apply list_elem_of_further.
    + intros [->|Hin]%elem_of_cons; [right; apply list_elem_of_here |].
      destruct (IH Hin) as [->|Hm]; [by left |].
      right. by apply list_elem_of_further.
Qed.

Lemma length_set m k v :
  length (set m k v) = if has m k then length m else S (length m).
Proof.
  induction m as [|[k0 v0] m IH]; simpl; [done |].
  unfold has in *. simpl. destruct (String.eqb_spec k0 k) as [->|Hne]; simpl.
  - done.
  - rewrite IH. by destruct (get m k).
Qed.
End Updates.
End JsMapUpdates.

(** ** The merge as a lookup *)

Section MergeLookup.
Context {Render : Type}.
Implicit Types (mapA unionMap : TrackMap Render)
  (setOfUserMaps : JsMap.t (TrackMap Render)) (name : string).

Lemma mergeTracks_candidates mapA setOfUserMaps :
  mergeTracks mapA setOfUserMaps
  = fold_left (addTrack (map position (JsMap.values mapA)))
      (candidates setOfUserMaps) (mapA, []).
Proof.
  unfold mergeTracks, candidates. generalize (mapA, @nil Diagnostic) as acc.
  induction setOfUserMaps as [|[owner userMap] rest IH]; intros acc; simpl;
    [done |].
  by rewrite IH, fold_left_app.
Qed.

Lemma scanPositions_all existingPositions p :
  scanPositions existingPositions (length existingPositions) p = None
  ↔ p ∉ existingPositions.
Proof. rewrite scanPositions_None. by rewrite take_ge by lia. Qed.

Lemma scanPositions_Some existingPositions index p positionRef :
  scanPositions existingPositions index p = Some positionRef →
  positionRef = p ∧ positionRef ∈ existingPositions.
Proof.
  induction index as [|index IH]; simpl; [done |].
  destruct (existingPositions !! index) as [q|] eqn:Hlook; [|done].
  destruct (samePosition q p) eqn:Hsame; [|done].
  intros [= <-]. apply samePosition_true in Hsame.
  split; [done |]. by apply list_elem_of_lookup_2 in Hlook.
Qed.

Lemma find_findById_get unionMap name :
  find (findById name) (map (fun entry => mkIter (fst entry) (snd entry)) unionMap)
  = mkIter name <$> JsMap.get unionMap name.
Proof.
  induction unionMap as [|[k d] unionMap IH]; simpl; [done |].
  unfold findById at 1. simpl.
  by destruct (String.eqb_spec k name) as [->|].
Qed.

Lemma fold_addTrack_get mapA cands unionMap log name :
  JsMap.get
    (fst (fold_left (addTrack (map position (JsMap.values mapA))) cands
            (unionMap, log))) name
  = match JsMap.get unionMap name with
    | Some data => Some data
    | None => snd <$> find (candidateFor mapA name) cands
    end.
Proof.
  revert unionMap log. induction cands as [|[n d] cands IH];
    intros unionMap log; simpl.
  - by destruct (JsMap.get unionMap name).
  - unfold candidateFor at 1. simpl. unfold JsMap.has.
    destruct (JsMap.get unionMap n) as [existing|] eqn:Hn.
    + rewrite IH. destruct (String.eqb_spec n name) as [->|Hne]; simpl.
      * by rewrite Hn.
      * done.
    + destruct (scanPositions _ _ _) as [positionRef|] eqn:Hscan.
      * rewrite IH. destruct (JsMap.get unionMap name); [done |].
        rewrite bool_decide_eq_false_2; [by rewrite andb_false_r |].
        intros Hoff. apply scanPositions_Some in Hscan as [-> Hin]. done.
      * rewrite IH, JsMapUpdates.get_set.
        apply scanPositions_all in Hscan.
        destruct (String.eqb_spec n name) as [->|Hne]; simpl.
        -- rewrite Hn. by rewrite bool_decide_eq_true_2.
        -- done.
Qed.

(** Looking an id up in the flattened list: a track of the default map
    under that id is found as it is, whatever the user maps hold; failing
    that, the track found is the first entry of the user maps, in the order
    of the owners and of the entries of each, that has this id and lies off
    every position of the default map; failing that too, nothing is
    found. *)
Theorem getTracksFromMap_lookup mapA setOfUserMaps name :
  find (findById name) (getTracksFromMap mapA setOfUserMaps)
  = mkIter name
    <$> match JsMap.get mapA name with
        | Some data => Some data
        | None => snd <$> find (candidateFor mapA name) (candidates setOfUserMaps)
        end.
Proof.
  unfold getTracksFromMap.
  by rewrite find_findById_get, mergeTracks_candidates, fold_addTrack_get.
Qed.
End MergeLookup.

(** ** What the merge writes on the console *)

Section MergeDiagnostics.
Context {Render : Type}.
Implicit Types (mapA unionMap : TrackMap Render)
  (setOfUserMaps : JsMap.t (TrackMap Render)) (log : list Diagnostic).

(** The three ways out of the body of the inner loop. *)
Lemma addTrack_step existingPositions unionMap log name
    (data : TrackDefinition Render) :
  (addTrack existingPositions (unionMap, log) (name, data)
   = (unionMap, log ++ [NameAlreadyRegistered name])
   ∧ name ∈ JsMap.keys unionMap)
  ∨ (addTrack existingPositions (unionMap, log) (name, data)
     = (unionMap, log ++ [TrackConflict name (position data)])
     ∧ (name ∉ JsMap.keys unionMap)
     ∧ position data ∈ existingPositions)
  ∨ (addTrack existingPositions (unionMap, log) (name, data)
     = (unionMap ++ [(name, data)], log)
     ∧ (name ∉ JsMap.keys unionMap)
     ∧ (position data ∉ existingPositions)).
Proof.
  unfold addTrack. destruct (JsMap.has unionMap name) eqn:Hhas.
  - left. split; [done |].
    destruct (decide (name ∈ JsMap.keys unionMap)) as [|Hnotin]; [done |].
    apply JsMapFacts.has_false in Hnotin. congruence.
  - right. apply JsMapFacts.has_false in Hhas.
    destruct (scanPositions _ _ _) as [positionRef|] eqn:Hscan.
    + left. apply scanPositions_Some in Hscan as [-> Hin]. done.
    + right. apply scanPositions_all in Hscan.
      rewrite JsMapFacts.set_fresh by by apply JsMapFacts.has_false.
      done.
Qed.

Lemma fold_addTrack_length existingPositions
    (cands : list (string * TrackDefinition Render)) unionMap log :
  length (fst (fold_left (addTrack existingPositions) cands (unionMap, log)))
  + length (snd (fold_left (addTrack existingPositions) cands (unionMap, log)))
  = length unionMap + length log + length cands.
Proof.
  revert unionMap log. induction cands as [|[name data] cands IH];
    intros unionMap log; cbn [fold_left]; [simpl; lia |].
  destruct (addTrack_step existingPositions unionMap log name data)
    as [[-> _]|[[-> _]|[-> _]]]; rewrite IH, length_app; simpl; lia.
Qed.

Lemma fold_addTrack_keys existingPositions
    (cands : list (string * TrackDefinition Render)) unionMap log name :
  name ∈ JsMap.keys unionMap →
  name ∈ JsMap.keys
           (fst (fold_left (addTrack existingPositions) cands (unionMap, log))).
Proof.
  revert unionMap log. induction cands as [|[n d] cands IH];
    intros unionMap log Hin; cbn [fold_left]; [done |].
  destruct (addTrack_step existingPositions unionMap log n d)
    as [[-> _]|[[-> _]|[-> _]]]; apply IH; [done | done |].
  rewrite JsMapFacts.keys_app. apply elem_of_app. by left.
Qed.
Lemma fold_addTrack_justified mapA
    (cands : list (string * TrackDefinition Render)) unionMap log message :
  message ∈ snd (fold_left (addTrack (map position (JsMap.values mapA))) cands
                   (unionMap, log)) →
  message ∈ log
  ∨ justified mapA
      (fst (fold_left (addTrack (map position (JsMap.values mapA))) cands
              (unionMap, log)))
      cands message.
Proof.
  revert unionMap log. induction cands as [|[n d] cands IH];
    intros unionMap log; cbn [fold_left]; [by left |].
  assert (∀ final, justified mapA final cands message →
            justified mapA final ((n, d) :: cands) message) as Hweaken.
  { intros final. destruct message as [name|name positionRef|]; simpl; [| |done].
    - intros [? ?]. split; [done | by apply list_elem_of_further].
    - intros (? & data & ? & ?). split; [done |]. exists data.
      split; [by apply list_elem_of_further | done]. }
  destruct (addTrack_step (map position (JsMap.values mapA)) unionMap log n d)
    as [[Heq Hin]|[[Heq (Hnotin & Hpos)]|[Heq _]]]; rewrite Heq; intros Hmsg;
    destruct (IH _ _ Hmsg) as [Hlog|Hjust]; try (right; by apply Hweaken).
  - apply elem_of_app in Hlog as [?| ->%list_elem_of_singleton]; [by left |].
    right. simpl. split; [by apply fold_addTrack_keys | apply list_elem_of_here].
  - apply elem_of_app in Hlog as [?| ->%list_elem_of_singleton]; [by left |].
    right. simpl. split; [done |]. exists d. split; [apply list_elem_of_here | done].
  - by left.
Qed.

(** Every entry of the user maps is either inserted or reported, once: the
    tracks of the flattened list and the messages of the merge are together
    as many as the tracks of the default map and the entries of the user
    maps. *)
Theorem getTracksFromMap_inserts_or_reports mapA setOfUserMaps :
  length (getTracksFromMap mapA setOfUserMaps)
  + length (snd (mergeTracks mapA setOfUserMaps))
  = length mapA + length (candidates setOfUserMaps).
Proof.
  unfold getTracksFromMap. rewrite length_map, mergeTracks_candidates.
  rewrite fold_addTrack_length. simpl. lia.
Qed.

(** A message of the merge is never without a cause: a name reported as
    already registered is the name of an entry of the user maps and the id
    of a track of the flattened list; a conflict is reported with a position
    of the default map, on which an entry of that name lies. The merge
    reports nothing else. *)
Theorem mergeTracks_messages_justified mapA setOfUserMaps message :
  message ∈ snd (mergeTracks mapA setOfUserMaps) →
  justified mapA (fst (mergeTracks mapA setOfUserMaps))
    (candidates setOfUserMaps) message.
Proof.
  rewrite mergeTracks_candidates. intros Hmsg.
  destruct (fold_addTrack_justified _ _ _ _ _ Hmsg) as [Hnil|Hjust]; [|done].
  by apply elem_of_nil in Hnil.
Qed.

(** Two tracks of the flattened list that have the same id are the same
    track, however many user maps declare that id. *)
Theorem getTracksFromMap_same_id_same_track mapA setOfUserMaps
    (track1 track2 : TrackIterDefinition Render) :
  JsMap.wf mapA →
  track1 ∈ getTracksFromMap mapA setOfUserMaps →
  track2 ∈ getTracksFromMap mapA setOfUserMaps →
  id track1 = id track2 → track1 = track2.
Proof.
  intros Hwf Hin1 Hin2 Hid.
  pose proof (getTracksFromMap_ids_NoDup mapA setOfUserMaps Hwf) as Hnd.
  pose proof (find_findById_unique _ (id track1) track1 Hnd Hin1 eq_refl) as H1.
  pose proof (find_findById_unique _ (id track1) track2 Hnd Hin2 (eq_sym Hid)) as H2.
  congruence.
Qed.
End MergeDiagnostics.

Lemma mergeTracks_messages_justified_witness :
  justified scenarioTracks
    (fst (mergeTracks scenarioTracks
            [("app", [("left", view 0 1 "L"); ("x", view 1 0 "X")])]))
    (candidates [("app", [("left", view 0 1 "L"); ("x", view 1 0 "X")])])
    (TrackConflict "x" (1%Z, 0%Z)).
Proof.
  apply (mergeTracks_messages_justified scenarioTracks
           [("app", [("left", view 0 1 "L"); ("x", view 1 0 "X")])]).
  listed.
Defined.

Lemma getTracksFromMap_same_id_same_track_witness :
  mkIter "a" (view 0 1 "A") = mkIter "a" (view 0 1 "A").
Proof.
  apply (getTracksFromMap_same_id_same_track scenarioTracks
           [("app", [("a", view 0 1 "A")]); ("menu", [("a", view 0 2 "B")])]).
  - distinct_keys.
  - listed.
  - listed.
  - reflexivity.
Defined.

Lemma getTracksFromMap_keeps_default_witness :
  ∃ added,
    getTracksFromMap scenarioTracks overlappingUserMaps
    = map (fun entry => mkIter (fst entry) (snd entry)) scenarioTracks ++ added.
Proof.
  apply (getTracksFromMap_keeps_default scenarioTracks overlappingUserMaps).
  distinct_keys.
Defined.

(** ** Navigation, composed *)

Section NavigationComposed.
Context {Render TrackContext : Type}.
Context (defaultTracks : TrackMap Render).
Implicit Types (st : State Render TrackContext).

Lemma currentTrack_at (tracks : list (TrackIterDefinition Render)) view :
  view ∈ tracks →
  ∃ found, currentTrack tracks (position (definition view)) = Some found
           ∧ found ∈ tracks
           ∧ position (definition found) = position (definition view).
Proof.
  intros Hin. unfold currentTrack.
  destruct (find _ tracks) as [found|] eqn:Hfind.
  - apply find_some in Hfind as [HinF Hsame].
    exists found. split; [done |]. split; [by apply list_elem_of_In |].
    apply andb_true_iff in Hsame as [Hx Hy].
    apply Z.eqb_eq in Hx, Hy.
    destruct (position (definition found)), (position (definition view)).
    simpl in *. congruence.
  - apply list_elem_of_In in Hin.
    pose proof (find_none _ _ Hfind _ Hin) as Hno. simpl in Hno.
    by rewrite !Z.eqb_refl in Hno.
Qed.

(** [navigateToView] to an id of the flattened list followed by
    [returnToLast] gives the journey back as it was and puts the current
    position on the track of the id the journey ended with, provided that
    id is not the empty string and still names a track; the context stored
    by the navigation stays. *)
Theorem navigateToView_then_returnToLast
    st name context view previousId previousView :
  JsMap.wf defaultTracks →
  view ∈ allTracksAsList defaultTracks st → id view = name →
  last (journeyStack st) = Some previousId → previousId ≠ "" →
  previousView ∈ allTracksAsList defaultTracks st →
  id previousView = previousId →
  returnToLast defaultTracks (fst (navigateToView defaultTracks st name context))
  = (mkState (journeyStack st) (position (definition previousView))
       (userDefinedTrackMaps st) (<[name := context]> (contextMap st)), []).
Proof.
  intros Hwf Hin Hid Hlast Hne HinP HidP.
  rewrite (navigateToView_resolved defaultTracks st name context view) by done.
  cbn [fst].
  rewrite (returnToLast_resolved defaultTracks _ previousId previousView);
    cbn [journeyStack userDefinedTrackMaps contextMap]; try done.
  - rewrite length_app. simpl.
    replace (length (journeyStack st) + 1 - 1) with (length (journeyStack st))
      by lia.
    by rewrite take_app_length.
  - rewrite length_app. simpl. apply last_Some in Hlast as [front ->].
    rewrite length_app. simpl. lia.
  - rewrite length_app. simpl. rewrite last_lookup in Hlast.
    assert (journeyStack st ≠ []) as Hnonempty by (by intros Hnil; rewrite Hnil in Hlast).
    assert (0 < length (journeyStack st)) as Hpos
      by (destruct (journeyStack st); [done | simpl; lia]).
    replace (length (journeyStack st) + 1 - 2)
      with (pred (length (journeyStack st))) by lia.
    rewrite lookup_app_l by lia. done.
Qed.

(** After [navigateToView] from a journey that ends with the id of a
    track, the direction of the way back is read off the abscissas of that
    track and of the track navigated to: ['left'] when the former lies to
    the left, ['right'] when it lies to the right, ['top'] when they are
    level. *)
Theorem navigateToView_returnDirection
    st name context view previousId previousView :
  JsMap.wf defaultTracks →
  view ∈ allTracksAsList defaultTracks st → id view = name →
  last (journeyStack st) = Some previousId → previousId ≠ "" →
  previousView ∈ allTracksAsList defaultTracks st →
  id previousView = previousId →
  let after := fst (navigateToView defaultTracks st name context) in
  returnDirection (journeyStack after) (allTracksAsList defaultTracks after)
    (currentTrack (allTracksAsList defaultTracks after) (currentPosition after))
    (currentPosition after)
  = let dX := ((position (definition previousView)).1
               - (position (definition view)).1)%Z in
    if (dX <? 0)%Z then Some Left
    else if (dX >? 0)%Z then Some Right else Some Top.
Proof.
  intros Hwf Hin Hid Hlast Hne HinP HidP after. subst after.
  rewrite (navigateToView_resolved defaultTracks st name context view) by done.
  cbn [fst journeyStack currentPosition].
  change (allTracksAsList defaultTracks (mkState _ _ _ _))
    with (allTracksAsList defaultTracks st).
  apply (returnDirection_resolved _ _ _ _ previousId previousView).
  - by apply allTracksAsList_ids_NoDup.
  - rewrite length_app. simpl. apply last_Some in Hlast as [front ->].
    rewrite length_app. simpl. lia.
  - rewrite length_app. simpl. rewrite last_lookup in Hlast.
    assert (0 < length (journeyStack st)) as Hpos.
    { destruct (journeyStack st); [done | simpl; lia]. }
    replace (length (journeyStack st) + 1 - 2)
      with (pred (length (journeyStack st))) by lia.
    by rewrite lookup_app_l by lia.
  - done.
  - done.
  - done.
  - destruct (currentTrack_at _ view Hin) as (found & -> & _). by eexists.
Qed.

(** The journey never loses its first entry: whatever is run from the
    initial state, it still begins with ['start']. *)
Theorem journeyStack_begins_with_start
    (actions : list (Action Render TrackContext)) :
  head (journeyStack (run defaultTracks actions initialState)) = Some "start".
Proof.
  assert (∀ st, head (journeyStack st) = Some "start" →
            head (journeyStack (run defaultTracks actions st)) = Some "start")
    as Hrun; [|by apply Hrun].
  induction actions as [|a actions IH]; intros st Hhead; simpl; [done |].
  apply IH. destruct (journeyStack st) as [|first rest] eqn:Hstack; [done |].
  simpl in Hhead. injection Hhead as ->.
  destruct a as [name context| |owner tracks start|owner]; simpl.
  - destruct (navigateToView_journey defaultTracks st name context) as [-> | ->];
      by rewrite Hstack.
  - destruct (returnToLast_journey defaultTracks st)
      as [-> |(Hlen & -> & _)]; rewrite Hstack; [done |].
    rewrite Hstack in Hlen. simpl in Hlen.
    destruct rest; [simpl in Hlen; lia | done].
  - by rewrite Hstack.
  - unfold deregisterTracks. destruct owner as [s|]; [|by simpl; rewrite Hstack].
    destruct (truthy s); simpl; by rewrite Hstack.
Qed.
End NavigationComposed.

Lemma navigateToView_then_returnToLast_witness :
  returnToLast scenarioTracks
    (fst (navigateToView scenarioTracks (@initialState string string)
            "left" (Some "ctx")))
  = (mkState ["start"] (0%Z, 0%Z) JsMap.empty (<["left" := Some "ctx"]> ∅), []).
Proof.
  apply (navigateToView_then_returnToLast scenarioTracks initialState "left"
           (Some "ctx") (mkIter "left" (view (-1) 0 "Left")) "start"
           (mkIter "start" (view 0 0 "Start"))).
  - distinct_keys.
  - listed.
  - reflexivity.
  - reflexivity.
  - discriminate.
  - listed.
  - reflexivity.
Defined.

Lemma navigateToView_returnDirection_witness :
  returnDirection (journeyStack atLeft) (allTracksAsList scenarioTracks atLeft)
    (currentTrack (allTracksAsList scenarioTracks atLeft) (currentPosition atLeft))
    (currentPosition atLeft)
  = Some Right.
Proof.
  apply (navigateToView_returnDirection scenarioTracks initialState "left" None
           (mkIter "left" (view (-1) 0 "Left")) "start"
           (mkIter "start" (view 0 0 "Start"))).
  - distinct_keys.
  - listed.
  - reflexivity.
  - reflexivity.
  - discriminate.
  - listed.
  - reflexivity.
Defined.

(** ** Registering, composed *)

Section RegisterComposed.
Context {Render TrackContext : Type}.
Implicit Types (st : State Render TrackContext) (tracks : TrackMap Render).

(** Where no start position is passed, or one with no coordinate equal to
    zero, and where the coordinates of the anchor (the current position in
    the first case, the start position in the second), those of the map
    passed and their sums are safe integers, the map stored for the owner
    is the map passed with every position moved by the anchor and every
    render function passed through, in the same order. *)
Theorem registerNewTracks_at_anchor st owner tracks start anchor :
  JsMap.wf tracks →
  (start = None ∧ anchor = currentPosition st)
  ∨ (start = Some anchor ∧ anchor.1 ≠ 0%Z ∧ anchor.2 ≠ 0%Z) →
  safeInteger anchor.1 → safeInteger anchor.2 →
  (∀ entry, entry ∈ tracks →
     safeInteger (position (snd entry)).1
     ∧ safeInteger (position (snd entry)).2
     ∧ safeInteger (anchor.1 + (position (snd entry)).1)
     ∧ safeInteger (anchor.2 + (position (snd entry)).2)) →
  JsMap.get (userDefinedTrackMaps (registerNewTracks st owner tracks start)) owner
  = Some (map (fun entry =>
                 (fst entry,
                  mkTrack ((anchor.1 + (position (snd entry)).1)%Z,
                           (anchor.2 + (position (snd entry)).2)%Z)
                          (render (snd entry))))
            tracks).
Proof.
  intros Hwf Hanchor _ _ _. rewrite registerNewTracks_translates by done.
  rewrite !offset_cases.
  destruct Hanchor as [[-> ->]|(-> & Hx & Hy)]; simpl; [done |].
  destruct (Z.eqb_spec anchor.1 0), (Z.eqb_spec anchor.2 0); done.
Qed.

(** [registerNewTracks] touches the map of the owner it is given and
    nothing else: the journey, the position, the contexts and the maps of
    the other owners stay. An owner that has a map keeps its place among
    the owners, hence its rank in the merge; a new owner comes last. *)
Theorem registerNewTracks_frame st owner tracks start :
  journeyStack (registerNewTracks st owner tracks start) = journeyStack st
  ∧ currentPosition (registerNewTracks st owner tracks start)
    = currentPosition st
  ∧ contextMap (registerNewTracks st owner tracks start) = contextMap st
  ∧ (∀ other, other ≠ owner →
       JsMap.get (userDefinedTrackMaps (registerNewTracks st owner tracks start))
         other
       = JsMap.get (userDefinedTrackMaps st) other)
  ∧ JsMap.keys (userDefinedTrackMaps (registerNewTracks st owner tracks start))
    = if JsMap.has (userDefinedTrackMaps st) owner
      then JsMap.keys (userDefinedTrackMaps st)
      else JsMap.keys (userDefinedTrackMaps st) ++ [owner].
Proof.
  unfold registerNewTracks. simpl. repeat split.
  - intros other Hne. rewrite JsMapUpdates.get_set.
    by destruct (String.eqb_spec owner other); [congruence |].
  - apply JsMapUpdates.keys_set.
Qed.

(** Registering twice under one owner leaves only the second map: the
    state is the one the second call alone would have given. *)
Theorem registerNewTracks_replaces st owner tracks1 start1 tracks2 start2 :
  registerNewTracks (registerNewTracks st owner tracks1 start1)
    owner tracks2 start2
  = registerNewTracks st owner tracks2 start2.
Proof.
  unfold registerNewTracks. simpl. by rewrite JsMapUpdates.set_set.
Qed.

Lemma keys_translateTracks offsetX offsetY tracks :
  JsMap.wf tracks →
  JsMap.keys (translateTracks offsetX offsetY tracks) = JsMap.keys tracks.
Proof.
  intros Hwf. unfold translateTracks. rewrite fold_translate_fresh by done.
  simpl. unfold JsMap.keys. rewrite map_map. done.
Qed.

(** Registering a map under an owner that had none and deregistering that
    owner gives the user maps back as they were, with the journey and the
    position; of the contexts, those stored under the ids of the map are
    gone and the others stay. *)
Theorem registerNewTracks_then_deregisterTracks st owner tracks start :
  owner ≠ "" → JsMap.get (userDefinedTrackMaps st) owner = None →
  JsMap.wf tracks →
  userDefinedTrackMaps
    (deregisterTracks (registerNewTracks st owner tracks start) (Some owner))
  = userDefinedTrackMaps st
  ∧ journeyStack
      (deregisterTracks (registerNewTracks st owner tracks start) (Some owner))
    = journeyStack st
  ∧ currentPosition
      (deregisterTracks (registerNewTracks st owner tracks start) (Some owner))
    = currentPosition st
  ∧ ∀ key,
      contextMap
        (deregisterTracks (registerNewTracks st owner tracks start) (Some owner))
      !! key
      = if bool_decide (key ∈ JsMap.keys tracks) then None
        else contextMap st !! key.
Proof.
  intros Hne Hnone Hwf. rewrite deregisterTracks_owner by done.
  unfold keysToRemove, registerNewTracks.
  cbn [userDefinedTrackMaps journeyStack currentPosition contextMap].
  rewrite JsMapUpdates.get_set, String.eqb_refl.
  rewrite (JsMapUpdates.delete_set_absent _ _ _ Hnone).
  rewrite keys_translateTracks by done.
  repeat split. intros key. apply lookup_delete_keys.
Qed.
End RegisterComposed.

Lemma registerNewTracks_at_anchor_witness :
  JsMap.get
    (userDefinedTrackMaps
       (registerNewTracks atRight "app" [("x", view 0 1 "X")] None)) "app"
  = Some [("x", view 1 1 "X")].
Proof.
  apply (registerNewTracks_at_anchor atRight "app" [("x", view 0 1 "X")] None
           (1%Z, 0%Z)).
  - distinct_keys.
  - left. split; reflexivity.
  - unfold safeInteger. simpl. lia.
  - unfold safeInteger. simpl. lia.
  - intros entry ->%list_elem_of_singleton. unfold safeInteger. simpl. lia.
Defined.

Lemma registerNewTracks_frame_witness :
  JsMap.get
    (userDefinedTrackMaps
       (registerNewTracks twoOwners "app" [("x", view 0 1 "X")] None)) "menu"
  = Some [("b", view 0 2 "B")]
  ∧ JsMap.keys
      (userDefinedTrackMaps
         (registerNewTracks twoOwners "menu" [("x", view 0 1 "X")] None))
    = [""; "menu"].
Proof.
  destruct (registerNewTracks_frame twoOwners "app" [("x", view 0 1 "X")] None)
    as (_ & _ & _ & Hothers & _).
  destruct (registerNewTracks_frame twoOwners "menu" [("x", view 0 1 "X")] None)
    as (_ & _ & _ & _ & Hkeys).
  split; [apply (Hothers "menu"); discriminate | exact Hkeys].
Defined.

Lemma registerNewTracks_then_deregisterTracks_witness :
  userDefinedTrackMaps
    (deregisterTracks
       (registerNewTracks twoOwners "app" [("a", view 0 1 "X")] None)
       (Some "app"))
  = userDefinedTrackMaps twoOwners
  ∧ contextMap
      (deregisterTracks
         (registerNewTracks twoOwners "app" [("a", view 0 1 "X")] None)
         (Some "app")) !! "a" = None.
Proof.
  destruct (registerNewTracks_then_deregisterTracks twoOwners "app"
              [("a", view 0 1 "X")] None) as (Hmaps & _ & _ & Hcontexts).
  - discriminate.
  - reflexivity.
  - distinct_keys.
  - split; [exact Hmaps | exact (Hcontexts "a")].
Defined.

(** ** Linear flows *)

Section LinearTracks.
Context {Render : Type}.
Implicit Types (steps : list (StepDefinition Render)) (tracks : TrackMap Render).

Lemma directionToPositionDelta_unit (d : Direction) :
  (0 ≤ (directionToPositionDelta d).2
   ∧ Z.abs (directionToPositionDelta d).1 + (directionToPositionDelta d).2 = 1)%Z.
Proof. destruct d; simpl; lia. Qed.

Lemma stepsFrom_entries index x y steps tracks entry :
  entry ∈ stepsFrom index x y steps tracks →
  entry ∈ tracks
  ∨ ∃ stepRef, stepRef ∈ steps ∧ fst entry = stepId stepRef
               ∧ render (snd entry) = stepRender stepRef.
Proof.
  revert index x y tracks. induction steps as [|stepRef rest IH];
    intros index x y tracks; cbn [stepsFrom]; [by left |].
  intros Hin. destruct (IH _ _ _ _ Hin) as [Hset|(s & Hs & Hid & Hrender)].
  - apply JsMapUpdates.elem_of_set in Hset as [->|Hold]; [|by left].
    right. exists stepRef. split; [apply list_elem_of_here | done].
  - right. exists s. split; [by apply list_elem_of_further | done].
Qed.

Lemma stepsFrom_bounds (bound : Z) index x y steps tracks entry :
  (0 ≤ y)%Z → (Z.abs x + y ≤ Z.of_nat (pred index))%Z →
  (index = 0 → x = 0%Z ∧ y = 0%Z) →
  (Z.of_nat index + Z.of_nat (length steps) ≤ bound + 1)%Z →
  (∀ old, old ∈ tracks →
     (0 ≤ (position (snd old)).2
      ∧ Z.abs (position (snd old)).1 + (position (snd old)).2 ≤ bound)%Z) →
  entry ∈ stepsFrom index x y steps tracks →
  (0 ≤ (position (snd entry)).2
   ∧ Z.abs (position (snd entry)).1 + (position (snd entry)).2 ≤ bound)%Z.
Proof.
  revert index x y tracks. induction steps as [|stepRef rest IH];
    intros index x y tracks Hy Hxy Hzero Hlen Hold; cbn [stepsFrom].
  - by apply Hold.
  - cbn [length] in Hlen. apply IH.
    + destruct index; simpl; [lia |].
      pose proof (directionToPositionDelta_unit
        (match direction stepRef with Some d => d | None => DirRight end)). lia.
    + destruct index; simpl in *; [lia |].
      pose proof (directionToPositionDelta_unit
        (match direction stepRef with Some d => d | None => DirRight end)). lia.
    + done.
    + lia.
    + intros old [->|Hin]%JsMapUpdates.elem_of_set; [|by apply Hold].
      cbn [snd position fst].
      destruct index; simpl in *.
      * destruct Hzero as [-> ->]; [done |]. lia.
      * pose proof (directionToPositionDelta_unit
          (match direction stepRef with Some d => d | None => DirRight end)).
        lia.
Qed.

(** Every track of the map built from a list of steps carries the id and
    the render function of one of the steps, lies on the row of the origin
    or below it, never above, and is within as many moves of the origin as
    there are steps after the first. *)
Theorem generateTracksFromSteps_bounds steps name (data : TrackDefinition Render) :
  (name, data) ∈ generateTracksFromSteps steps →
  (∃ stepRef, stepRef ∈ steps ∧ stepId stepRef = name
              ∧ stepRender stepRef = render data)
  ∧ (0 ≤ (position data).2)%Z
  ∧ (Z.abs (position data).1 + (position data).2
     ≤ Z.of_nat (length steps) - 1)%Z.
Proof.
  intros Hin. unfold generateTracksFromSteps in Hin. split.
  - destruct (stepsFrom_entries _ _ _ _ _ _ Hin) as [Hnil|(s & Hs & Hid & Hr)].
    + by apply elem_of_nil in Hnil.
    + exists s. simpl in *. done.
  - apply (stepsFrom_bounds (Z.of_nat (length steps) - 1) 0 0 0 steps
             JsMap.empty (name, data)); try done; try lia.
    intros old Hold. by apply elem_of_nil in Hold.
Qed.
End LinearTracks.

Lemma generateTracksFromSteps_bounds_witness :
  (∃ stepRef, stepRef ∈ thereAndBack ∧ stepId stepRef = "form"
              ∧ stepRender stepRef = render (view 1 0 "Form"))
  ∧ (0 ≤ (position (view 1 0 "Form")).2)%Z
  ∧ (Z.abs (position (view 1 0 "Form")).1 + (position (view 1 0 "Form")).2
     ≤ Z.of_nat (length thereAndBack) - 1)%Z.
Proof.
  apply (generateTracksFromSteps_bounds thereAndBack "form" (view 1 0 "Form")).
  listed.
Defined.

Section LinearLayout.
Context {Render : Type}.
Implicit Types (steps : list (StepDefinition Render)) (tracks : TrackMap Render).

Lemma stepsFrom_fresh index x y steps tracks :
  NoDup (JsMap.keys tracks ++ (stepId <$> steps)) →
  stepsFrom index x y steps tracks
  = tracks ++ stepsFrom index x y steps JsMap.empty.
Proof.
  revert index x y tracks. induction steps as [|stepRef rest IH];
    intros index x y tracks Hnd; cbn [stepsFrom].
  - by rewrite app_nil_r.
  - cbn [fmap list_fmap] in Hnd.
    pose proof Hnd as (_ & Hdisjoint & [Hfirst HndRest]%NoDup_cons)%NoDup_app.
    rewrite JsMapFacts.set_fresh.
    + rewrite IH.
      * rewrite (IH _ _ _ (JsMap.set JsMap.empty _ _)).
        -- simpl. by rewrite <- app_assoc.
        -- simpl. by apply NoDup_cons.
      * rewrite JsMapFacts.keys_app, <- app_assoc. simpl. done.
    + apply JsMapFacts.has_false. intros Hin.
      apply (Hdisjoint _ Hin), list_elem_of_here.
Qed.

Lemma stepsFrom_later_lookup index x y steps i stepRef :
  NoDup (stepId <$> steps) → steps !! i = Some stepRef →
  stepsFrom (S index) x y steps JsMap.empty !! i
  = Some (stepId stepRef,
          mkTrack ((x + (sumDeltas (take (S i) steps)).1)%Z,
                   (y + (sumDeltas (take (S i) steps)).2)%Z)
                  (stepRender stepRef)).
Proof.
  revert index x y i. induction steps as [|first rest IH];
    intros index x y i Hnd Hlook; [done |].
  cbn [stepsFrom]. cbn [fmap list_fmap] in Hnd.
  apply NoDup_cons in Hnd as [Hfirst HndRest].
  rewrite stepsFrom_fresh by (simpl; by apply NoDup_cons).
  destruct i as [|i]; simpl in Hlook.
  - injection Hlook as <-. simpl. unfold stepDelta.
    by rewrite !Z.add_0_r.
  - simpl. rewrite (IH _ _ _ i HndRest Hlook). unfold stepDelta. simpl.
    by rewrite !Z.add_assoc.
Qed.

Lemma stepsFrom_length index x y steps :
  NoDup (stepId <$> steps) →
  length (stepsFrom index x y steps JsMap.empty) = length steps.
Proof.
  revert index x y. induction steps as [|first rest IH];
    intros index x y Hnd; [done |].
  cbn [stepsFrom]. cbn [fmap list_fmap] in Hnd.
  apply NoDup_cons in Hnd as [Hfirst HndRest].
  rewrite stepsFrom_fresh by (simpl; by apply NoDup_cons).
  simpl. by rewrite IH.
Qed.

(** Where the steps have distinct ids, the map built from them has one
    track per step, in the order of the steps: the track of a step has its
    id and its render function and lies at the sum of the deltas of the
    steps after the first up to it. The first step is therefore at the
    origin whatever direction it declares. *)
Theorem generateTracksFromSteps_layout steps :
  NoDup (stepId <$> steps) →
  length (generateTracksFromSteps steps) = length steps
  ∧ ∀ i stepRef, steps !! i = Some stepRef →
      generateTracksFromSteps steps !! i
      = Some (stepId stepRef,
              mkTrack (sumDeltas (drop 1 (take (S i) steps)))
                      (stepRender stepRef)).
Proof.
  intros Hnd. split; [by apply stepsFrom_length |].
  intros i stepRef Hlook. unfold generateTracksFromSteps.
  destruct steps as [|first rest]; [done |].
  cbn [stepsFrom]. cbn [fmap list_fmap] in Hnd.
  apply NoDup_cons in Hnd as [Hfirst HndRest].
  rewrite stepsFrom_fresh by (simpl; by apply NoDup_cons).
  destruct i as [|i]; simpl in Hlook.
  - injection Hlook as <-. done.
  - cbn [take drop]. rewrite drop_0. simpl.
    rewrite (stepsFrom_later_lookup _ _ _ _ i stepRef HndRest Hlook).
    by destruct (sumDeltas (take (S i) rest)).
Qed.
End LinearLayout.

Lemma generateTracksFromSteps_layout_witness :
  length (generateTracksFromSteps thereAndBack) = 3
  ∧ generateTracksFromSteps thereAndBack !! 2 = Some ("done", view 0 0 "Done").
Proof.
  destruct (generateTracksFromSteps_layout thereAndBack) as [Hlength Hlayout].
  - apply (bool_decide_unpack _). vm_compute. exact I.
  - split; [exact Hlength |].
    exact (Hlayout 2 (mkStep "done" (Some DirLeft) "Done") eq_refl).
Defined.

(** ** Deregistering twice *)

Section DeregisterTwice.
Context {Render TrackContext : Type}.
Implicit Types (st : State Render TrackContext).

(** Deregistering the same owner a second time changes nothing, and so
    does emptying the user maps a second time: the second call finds no
    map to remove and no context to purge. *)
Theorem deregisterTracks_idempotent st (owner : option string) :
  deregisterTracks (deregisterTracks st owner) owner = deregisterTracks st owner.
Proof.
  destruct (noOwner owner) eqn:Hnone.
  - by rewrite !deregisterTracks_noOwner.
  - destruct owner as [s|]; [|done]. simpl in Hnone.
    apply negb_false_iff in Hnone.
    assert (s ≠ "") as Hne by (by intros ->).
    rewrite (deregisterTracks_owner (deregisterTracks st (Some s)) s Hne).
    rewrite (deregisterTracks_owner st s Hne).
    unfold keysToRemove. cbn [userDefinedTrackMaps journeyStack currentPosition contextMap].
    rewrite JsMapFacts.get_delete, String.eqb_refl. simpl.
    rewrite JsMapFacts.delete_absent; [done |].
    by rewrite JsMapFacts.get_delete, String.eqb_refl.
Qed.
End DeregisterTwice.

(** ** What the provider hands out, render by render *)

Section HookFacts.
Context {Render TrackContext : Type}.
Context (defaultTracks : TrackMap (nat * Render)).
Implicit Types (h : Hook Render TrackContext).

Lemma keys_defaultArrays :
  JsMap.keys (defaultArrays defaultTracks) = JsMap.keys defaultTracks.
Proof. unfold defaultArrays, JsMap.keys. by rewrite map_map. Qed.

(** Neither [registerNewTracks] nor [deregisterTracks] replaces a
    dependency of the two memos: the values handed out stay what they
    were, whatever becomes of the flattened list. *)
Lemma memos_kept_by_user_maps h owner tracks start removed :
  currentTrackMemo (hookRegisterNewTracks defaultTracks h owner tracks start)
  = currentTrackMemo h
  ∧ returnDirectionMemo (hookRegisterNewTracks defaultTracks h owner tracks start)
    = returnDirectionMemo h
  ∧ currentTrackMemo (hookDeregisterTracks defaultTracks h removed)
    = currentTrackMemo h
  ∧ returnDirectionMemo (hookDeregisterTracks defaultTracks h removed)
    = returnDirectionMemo h.
Proof.
  unfold hookRegisterNewTracks, hookDeregisterTracks, rerender. simpl.
  by rewrite !bool_decide_eq_true_2.
Qed.

(** After [navigateToView] to an id of the flattened list,
    [isCurrentTrack] answers yes for that id, provided the array of the
    track navigated to is not the one the current position already holds
    and no other track of the list lies on the position of that track. *)
Theorem isCurrentTrack_after_navigateToView h name context view :
  JsMap.wf defaultTracks →
  view ∈ allTracksAsList (defaultArrays defaultTracks) (cells h) →
  id view = name →
  arrayOf view ≠ positionArray h →
  (∀ other, other ∈ allTracksAsList (defaultArrays defaultTracks) (cells h) →
     position (definition other) = position (definition view) → other = view) →
  isCurrentTrack (hookNavigateToView defaultTracks h name context) name = true.
Proof.
  intros Hwf Hin Hid Harray Halone.
  assert (JsMap.wf (defaultArrays defaultTracks)) as Hwf'.
  { unfold JsMap.wf. by rewrite keys_defaultArrays. }
  unfold hookNavigateToView.
  rewrite (find_findById_unique _ name view);
    [| by apply allTracksAsList_ids_NoDup | done | done].
  rewrite (navigateToView_resolved (defaultArrays defaultTracks) (cells h)
             name context view) by done.
  unfold isCurrentTrack, rerender. cbn [fst currentTrackMemo currentPosition].
  rewrite bool_decide_eq_false_2 by done. cbn [negb].
  change (allTracksAsList (defaultArrays defaultTracks) (mkState _ _ _ _))
    with (allTracksAsList (defaultArrays defaultTracks) (cells h)).
  destruct (currentTrack_at _ view Hin) as (found & -> & HinF & Hpos).
  rewrite (Halone found HinF Hpos), Hid. apply String.eqb_refl.
Qed.
End HookFacts.

Lemma isCurrentTrack_after_navigateToView_witness :
  isCurrentTrack
    (hookNavigateToView scenarioArrays (@initialHook string string scenarioArrays)
       "left" None) "left" = true.
Proof.
  apply (isCurrentTrack_after_navigateToView scenarioArrays
           (initialHook scenarioArrays) "left" None
           (mkIter "left" (mkTrack ((-1)%Z, 0%Z) (DefaultArray 1, "Left")))).
  - distinct_keys.
  - listed.
  - reflexivity.
  - discriminate.
  - intros other Hin Hpos. apply list_elem_of_In in Hin. vm_compute in Hin.
    destruct Hin as [<-|[<-|[<-|[]]]]; [discriminate Hpos | reflexivity
                                       | discriminate Hpos].
Defined.

(** C6: the direction that the provider hands out is not [null] where the
    track of the entry before the last has gone with its user map. The
    owner [app] lays the track [a] below the origin, [a] is visited, then
    [left], and the owner is deregistered: the journey is
    [['start', 'a', 'left']], the flattened list has no track [a] any more,
    and the direction is still ['right'], as computed when [left] was
    reached, because deregistering replaces neither the journey nor the
    position, the two dependencies of the memo. The body of the memo, run
    on that state, gives [null]. *)
Theorem returnDirection_stale_after_deregisterTracks :
  journeyStack (cells (hookRun scenarioArrays visitedAndRemoved))
  = ["start"; "a"; "left"]
  ∧ id <$> allTracksAsList (defaultArrays scenarioArrays)
             (cells (hookRun scenarioArrays visitedAndRemoved))
    = ["start"; "left"; "right"]
  ∧ returnDirectionMemo (hookRun scenarioArrays visitedAndRemoved) = Some Right
  ∧ returnDirection
      (journeyStack (cells (hookRun scenarioArrays visitedAndRemoved)))
      (allTracksAsList (defaultArrays scenarioArrays)
         (cells (hookRun scenarioArrays visitedAndRemoved)))
      (currentTrackMemo (hookRun scenarioArrays visitedAndRemoved))
      (currentPosition (cells (hookRun scenarioArrays visitedAndRemoved)))
    = None.
Proof. repeat split. Qed.
